(** * login-common/master.c: the login side of the master control channel

    A shallow embedding of [src/login-common/master.c] (Dovecot login
    process, 2002) and the properties of its request/reply correlation,
    teardown, reply accumulation, environment bootstrap and connection
    bootstrap.

    Conventions.
    - The file-static variables of master.c are the fields of [state];
      every C function becomes a function [state -> outcome state].
    - [unsigned int] is a 32-bit value kept in [Z], wrap-around written
      out with [Z.modulo].
    - Values the operating system hands back (return codes of [fd_send],
      [close], [net_receive], [connect], ...) are inputs of the model.
    - Code that master.c calls but that lives in other files of the
      repository is modelled from its contract and marked as such. *)

From Stdlib Require Import ZArith Lia.
From Equations Require Import Equations.
From stdpp Require Import gmap list strings.

#[local] Open Scope Z_scope.

#[global] Instance byte_eq_dec : EqDecision Byte.byte := Byte.byte_eq_dec.

(** ** Outcomes of a C function *)

(** A call returns normally, ends the process through [i_fatal], aborts
    through a failed [i_assert], replaces the process image ([execv]) or
    dereferences a pointer that is not a live object. *)
Inductive outcome (A : Type) : Type :=
| Ok (a : A)
| Fatal (msg : string)
| Panic (msg : string)
| Exec (image : string)
| Fault.
Arguments Ok {A} a.
Arguments Fatal {A} msg.
Arguments Panic {A} msg.
Arguments Exec {A} image.
Arguments Fault {A}.

#[global] Instance outcome_ret : MRet outcome := @Ok.
#[global] Instance outcome_bind : MBind outcome := fun A B k m =>
  match m with
  | Ok a => k a
  | Fatal msg => Fatal msg
  | Panic msg => Panic msg
  | Exec image => Exec image
  | Fault => Fault
  end.


(** ** Data *)

Definition uint_max : Z := 2 ^ 32.

(** [unsigned int] arithmetic: the value modulo 2^32. *)
Definition to_uint (z : Z) : Z := z mod uint_max.

Definition client_ptr := nat.
Definition callback_ptr := nat.
Definition io_ptr := nat.

(** Modelled from the spec: struct ip_addr (network.h, not under src/).
    "local endpoint address, remote endpoint address": master.c only
    copies these values into the request. *)
Record ip_addr := IpAddr { family : Z; addr : list Byte.byte }.

#[global] Instance ip_addr_eq_dec : EqDecision ip_addr.
Proof. solve_decision. Defined.

(** The fields of [struct client] (client-common.h) that master.c reads
    and writes. [master_callback = None] is the NULL function pointer. *)
Record client := Client {
  fd : Z;
  local_ip : ip_addr;
  ip : ip_addr;
  master_tag : Z;
  master_callback : option callback_ptr;
}.

#[global] Instance client_eq_dec : EqDecision client.
Proof. solve_decision. Defined.

Definition set_master (tag : Z) (cb : option callback_ptr) (c : client) : client :=
  {| fd := fd c; local_ip := local_ip c; ip := ip c;
     master_tag := tag; master_callback := cb |}.

(** Modelled from the spec: struct master_login_request (master-login
    interface header, not under src/): "version:u32, tag:u32,
    auth_pid:u32, auth_id:u32, local_addr, remote_addr". *)
Record master_login_request := MasterLoginRequest {
  req_version : Z;
  req_tag : Z;
  req_auth_pid : Z;
  req_auth_id : Z;
  req_local_ip : ip_addr;
  req_remote_ip : ip_addr;
}.

#[global] Instance master_login_request_eq_dec : EqDecision master_login_request.
Proof. solve_decision. Defined.

(** An address after [memset(&req, 0, sizeof(req))]. *)
Definition zero_ip : ip_addr := IpAddr 0 [].

(** Modelled from the spec: struct master_login_reply, "tag:u32,
    success:u32 (0/1)"; the record is 8 bytes. *)
Record master_login_reply := MasterLoginReply {
  reply_tag : Z;
  reply_success : Z;
}.

Definition sizeof_reply : Z := 8.

(** What the process did that others can observe, in program order. *)
Inductive event :=
| EvFdSend (handle send_fd : Z) (req : master_login_request) (ret : Z)
| EvClose (handle : Z)
| EvIoRemove (io : io_ptr)
| EvMainCloseListen
| EvMainUnref
| EvClientDestroy (c : client_ptr)
| EvCallback (cb : callback_ptr) (c : client_ptr) (success : Z).

#[global] Instance event_eq_dec : EqDecision event.
Proof. solve_decision. Defined.

(** The statics of master.c, the live [struct client] objects and the
    history of observable events. *)
Record state := State {
  master_fd : Z;
  io_master : option io_ptr;
  master_requests : gmap Z client_ptr;
  master_tag_counter : Z;
  master_pos : Z;
  master_buf : list Byte.byte;
  clients : gmap client_ptr client;
  trace : list event;
}.

Definition set_master_fd (v : Z) (s : state) : state :=
  State v (io_master s) (master_requests s) (master_tag_counter s)
        (master_pos s) (master_buf s) (clients s) (trace s).
Definition set_io_master (v : option io_ptr) (s : state) : state :=
  State (master_fd s) v (master_requests s) (master_tag_counter s)
        (master_pos s) (master_buf s) (clients s) (trace s).
Definition set_master_requests (v : gmap Z client_ptr) (s : state) : state :=
  State (master_fd s) (io_master s) v (master_tag_counter s)
        (master_pos s) (master_buf s) (clients s) (trace s).
Definition set_master_tag_counter (v : Z) (s : state) : state :=
  State (master_fd s) (io_master s) (master_requests s) v
        (master_pos s) (master_buf s) (clients s) (trace s).
Definition set_master_pos (v : Z) (s : state) : state :=
  State (master_fd s) (io_master s) (master_requests s) (master_tag_counter s)
        v (master_buf s) (clients s) (trace s).
Definition set_master_buf (v : list Byte.byte) (s : state) : state :=
  State (master_fd s) (io_master s) (master_requests s) (master_tag_counter s)
        (master_pos s) v (clients s) (trace s).
Definition set_clients (v : gmap client_ptr client) (s : state) : state :=
  State (master_fd s) (io_master s) (master_requests s) (master_tag_counter s)
        (master_pos s) (master_buf s) v (trace s).
Definition log (e : event) (s : state) : state :=
  State (master_fd s) (io_master s) (master_requests s) (master_tag_counter s)
        (master_pos s) (master_buf s) (clients s) (trace s ++ [e]).

(** A store through a [struct client *]: [client->master_tag = tag;
    client->master_callback = cb]. *)
Definition client_store (c : client_ptr) (tag : Z) (cb : option callback_ptr)
    (s : state) : state :=
  set_clients (alter (set_master tag cb) c (clients s)) s.

(** ** The hash table of pending requests *)

(** Modelled from the spec: hash_lookup, hash_insert and hash_remove
    (lib/hash.c, not under src/) on a table created with NULL hash and
    compare callbacks, so that the key is the tag itself: a "mapping from
    tag to" client that supports "insert/lookup/remove"; inserting an
    existing key replaces its value and removing an absent key leaves the
    table as it is. *)
Definition hash_lookup (tag : Z) (s : state) : option client_ptr :=
  master_requests s !! tag.
Definition hash_insert (tag : Z) (c : client_ptr) (s : state) : state :=
  set_master_requests (<[tag := c]> (master_requests s)) s.
Definition hash_remove (tag : Z) (s : state) : state :=
  set_master_requests (delete tag (master_requests s)) s.

(** Modelled from the spec: sizeof(struct master_login_request) and
    MASTER_LOGIN_PROTOCOL_VERSION (interface header, not under src/) and
    the build-time directories PKG_RUNDIR and SBINDIR are parameters of
    the platform. *)
Record platform := Platform {
  sizeof_request : Z;
  MASTER_LOGIN_PROTOCOL_VERSION : Z;
  PKG_RUNDIR : string;
  SBINDIR : string;
}.

(** ** Request correlator *)

Section Correlator.

Variable pf : platform.

(** The code behind each [master_callback_t] function pointer: it
    receives the client and the success flag and may do anything to the
    process state, destroying the client included. *)
Variable callbacks : callback_ptr -> client_ptr -> Z -> state -> outcome state.

(** [fd_send(handle, send_fd, &req, sizeof(req))] returning [ret]. *)
Definition fd_send (ret : Z) (handle send_fd : Z) (req : master_login_request)
    (s : state) : state :=
  log (EvFdSend handle send_fd req ret) s.

(** [++master_tag_counter] and its new value. *)
Definition incr_tag_counter (s : state) : Z * state :=
  let v := to_uint (master_tag_counter s + 1) in
  (v, set_master_tag_counter v s).

(** [req.tag = ++master_tag_counter; if (req.tag == 0) req.tag =
    ++master_tag_counter;] *)
Definition next_tag (s : state) : Z * state :=
  let '(tag, s1) := incr_tag_counter s in
  if decide (tag = 0) then incr_tag_counter s1 else (tag, s1).

Definition request_handle (reply : master_login_reply) (s : state) : outcome state :=
  match hash_lookup (reply_tag reply) s with
  | None => Fatal "Master sent reply with unknown tag"
  | Some c =>
      match clients s !! c with
      | None => Fault
      | Some cl =>
          let master_callback := master_callback cl in
          let s1 := client_store c 0 None s in
          match master_callback with
          | None => Fault
          | Some cb =>
              s2 ← callbacks cb c (reply_success reply)
                     (log (EvCallback cb c (reply_success reply)) s1);
              (* NOTE: client may be destroyed now *)
              Ok (hash_remove (reply_tag reply) s2)
          end
      end
  end.

(** [send_ret] is what [fd_send] returns. *)
Definition master_request_login (send_ret : Z) (c : client_ptr)
    (callback : callback_ptr) (auth_pid auth_id : Z) (s : state) : outcome state :=
  if decide (auth_pid = 0) then Panic "assertion failed: auth_pid != 0" else
  let '(tag, s1) := next_tag s in
  match clients s1 !! c with
  | None => Fault
  | Some cl =>
      let req := {| req_version := MASTER_LOGIN_PROTOCOL_VERSION pf;
                    req_tag := tag;
                    req_auth_pid := auth_pid;
                    req_auth_id := auth_id;
                    req_local_ip := local_ip cl;
                    req_remote_ip := ip cl |} in
      let s2 := fd_send send_ret (master_fd s1) (fd cl) req s1 in
      if decide (send_ret ≠ sizeof_request pf) then Fatal "fd_send failed" else
      let s3 := client_store c tag (Some callback) s2 in
      Ok (hash_insert tag c s3)
  end.

Definition master_request_abort (c : client_ptr) (s : state) : outcome state :=
  match clients s !! c with
  | None => Fault
  | Some cl =>
      let s1 := hash_remove (master_tag cl) s in
      Ok (client_store c 0 None s1)
  end.

Definition master_notify_finished (send_ret : Z) (s : state) : outcome state :=
  match io_master s with
  | None => Ok s
  | Some _ =>
      let req := {| req_version := MASTER_LOGIN_PROTOCOL_VERSION pf;
                    req_tag := 0; req_auth_pid := 0; req_auth_id := 0;
                    req_local_ip := zero_ip; req_remote_ip := zero_ip |} in
      (* sending -1 as fd does the notification *)
      let s1 := fd_send send_ret (master_fd s) (-1) req s in
      if decide (send_ret ≠ sizeof_request pf) then Fatal "fd_send(-1) failed" else
      Ok s1
  end.

End Correlator.

(** ** Teardown *)

(** Modelled from the spec: main_close_listen and main_unref (main.c of
    the login process, not under src/): "notify the owning
    process-lifecycle component that the control link is gone". When
    main_unref calls back into master_close, io_master is already NULL. *)
Definition main_close_listen (s : state) : state := log EvMainCloseListen s.
Definition main_unref (s : state) : state := log EvMainUnref s.

(** Modelled from the spec: client_destroy and clients_destroy_all
    (client-common, not under src/): "force-destroy every client currently
    holding a PendingRequest (each such client receives no success/failure
    decision — it is simply removed, since no legitimate answer can ever
    arrive)"; a PendingRequest is destroyed "when the channel is torn down
    (forced)"; "a client's own pending_tag field is the authoritative
    mirror of whether it has an outstanding request (0 = none)". *)
Definition client_destroy (c : client_ptr) (s : state) : state :=
  match clients s !! c with
  | None => s
  | Some cl =>
      let s1 := hash_remove (master_tag cl) s in
      log (EvClientDestroy c) (set_clients (delete c (clients s1)) s1)
  end.

Definition holds_pending (cl : client) : Prop := master_tag cl ≠ 0.

Definition pending_clients (s : state) : list client_ptr :=
  (map_to_list (filter (λ kv, holds_pending kv.2) (clients s))).*1.

Definition clients_destroy_all (s : state) : state :=
  foldr client_destroy s (pending_clients s).

(** [close_ret] is what [close(master_fd)] returns. *)
Definition master_close (close_ret : Z) (s : state) : outcome state :=
  match io_master s with
  | None => Ok s
  | Some io =>
      let s1 := log (EvClose (master_fd s)) s in
      if decide (close_ret < 0) then Fatal "close(master) failed" else
      let s2 := set_master_fd (-1) s1 in
      let s3 := log (EvIoRemove io) s2 in
      let s4 := set_io_master None s3 in
      let s5 := main_close_listen s4 in
      let s6 := main_unref s5 in
      (* may call this function again through main_unref() *)
      Ok (clients_destroy_all s6)
  end.

(** ** Liveness monitor *)

(** Native (little-endian) 32-bit field of the reply record. *)
Definition le_uint32 (bs : list Byte.byte) : Z :=
  foldr (λ b acc, Z.of_N (Byte.to_N b) + 256 * acc) 0 (take 4 bs).

(** The cast of [master_buf] to a [struct master_login_reply] pointer. *)
Definition decode_reply (buf : list Byte.byte) : master_login_reply :=
  {| reply_tag := le_uint32 buf; reply_success := le_uint32 (drop 4 buf) |}.

(** What [net_receive(master_fd, master_buf + master_pos, ...)] leaves in
    the buffer when it returns [ret] after receiving [data]. *)
Definition net_receive_store (ret : Z) (data : list Byte.byte) (s : state) : state :=
  set_master_buf
    (list_inserts (Z.to_nat (master_pos s)) (take (Z.to_nat ret) data) (master_buf s)) s.

Section Monitor.

Variable callbacks : callback_ptr -> client_ptr -> Z -> state -> outcome state.

(** One readiness wake. [ret] and [data] are the result of net_receive,
    [close_ret] the result of close(2) should teardown run. *)
Definition master_input (ret : Z) (data : list Byte.byte) (close_ret : Z)
    (s : state) : outcome state :=
  if decide (ret < 0) then
    (* master died, kill all clients logging in *)
    master_close close_ret s
  else
    let s1 := net_receive_store ret data s in
    let s2 := set_master_pos (to_uint (master_pos s1 + ret)) s1 in
    if decide (master_pos s2 < sizeof_reply) then Ok s2 else
    (* reply is now read *)
    (s3 ← request_handle callbacks (decode_reply (master_buf s2)) s2;
     Ok (set_master_pos 0 s3)).

End Monitor.

(** Zero-initialised statics before master_init. *)
Definition static_init : state :=
  {| master_fd := 0; io_master := None; master_requests := ∅;
     master_tag_counter := 0; master_pos := 0;
     master_buf := replicate (Z.to_nat sizeof_reply) Byte.x00;
     clients := ∅; trace := [] |}.

(** [io] is the handle io_add returns; main_ref only counts references. *)
Definition master_init (pf : platform) (io : io_ptr) (send_ret : Z)
    (fd : Z) (notify : bool) (s : state) : outcome state :=
  let s1 := set_master_fd fd s in
  let s2 := set_master_requests ∅ s1 in
  let s3 := set_master_pos 0 s2 in
  let s4 := set_io_master (Some io) s3 in
  if notify then master_notify_finished pf send_ret s4 else Ok s4.

(** ** Bootstrap: the process, its environment and its system calls *)

Inductive errno :=
| ECONNREFUSED
| ENOENT
| EADDRINUSE
| EOTHER (code : Z).

#[global] Instance errno_eq_dec : EqDecision errno.
Proof. solve_decision. Defined.

Inductive syscall :=
| SysConnect (path : string)
| SysUnlink (path : string)
| SysListen (path : string)
| SysFork
| SysDup2 (oldfd newfd : Z)
| SysSetsid
| SysExecv (path : string)
| SysClose (handle : Z)
| SysWrite (handle : Z) (data : list Byte.byte)
| SysRead (handle : Z) (ret : Z)
| LogError (msg : string).

#[global] Instance syscall_eq_dec : EqDecision syscall.
Proof. solve_decision. Defined.

(** The process environment is the array of its entries. *)
Record proc := Proc {
  environ : list (list Byte.byte);
  syscalls : list syscall;
}.

Definition set_environ (v : list (list Byte.byte)) (p : proc) : proc :=
  Proc v (syscalls p).
Definition sys (e : syscall) (p : proc) : proc :=
  Proc (environ p) (syscalls p ++ [e]).

(** A bootstrap function ends with an outcome and leaves the process as
    it was at that moment, also when the outcome ends the process. *)
Definition run (A : Type) : Type := proc -> outcome A * proc.

Definition run_bind {A B} (m : run A) (k : A -> run B) : run B := fun p =>
  match m p with
  | (Ok a, p1) => k a p1
  | (Fatal msg, p1) => (Fatal msg, p1)
  | (Panic msg, p1) => (Panic msg, p1)
  | (Exec image, p1) => (Exec image, p1)
  | (Fault, p1) => (Fault, p1)
  end.

Notation "x ⇐ m ;; k" := (run_bind m (fun x => k))
  (at level 100, m at next level, right associativity).

Definition i_fatal {A} (msg : string) : run A := fun p => (Fatal msg, p).

(** The bytes of a C string: up to the first NUL. *)
Fixpoint c_str (bs : list Byte.byte) : list Byte.byte :=
  match bs with
  | [] => []
  | b :: r => if decide (b = Byte.x00) then [] else b :: c_str r
  end.

Definition strlen (bs : list Byte.byte) : Z := Z.of_nat (length (c_str bs)).

(** Modelled from the spec: env_put (lib/env-util.c, not under src/):
    each line "is a KEY=VALUE pair merged into the process's environment",
    "values are literal". The key of an entry is what precedes its first
    '='; merging replaces the entry of the same key or adds a new one.
    env_clean, of the same file, is taken at its name: it leaves the
    environment empty. *)
Fixpoint env_key (entry : list Byte.byte) : list Byte.byte :=
  match entry with
  | [] => []
  | b :: r => if decide (b = Byte.x3d) then [] else b :: env_key r
  end.

Fixpoint env_merge (entry : list Byte.byte) (env : list (list Byte.byte))
    : list (list Byte.byte) :=
  match env with
  | [] => [entry]
  | e :: r => if decide (env_key e = env_key entry) then entry :: r
              else e :: env_merge entry r
  end.

Definition env_clean (p : proc) : proc := set_environ [] p.
Definition env_put (line : list Byte.byte) (p : proc) : proc :=
  set_environ (env_merge (c_str line) (environ p)) p.

(** ** Environment loader *)

Definition LF : Byte.byte := Byte.x0a.

(** Modelled from the spec: struct istream over a descriptor
    (lib/istream.c, not under src/): "Reads lines from the freshly
    connected descriptor using a bounded buffer (practical cap ~8192 bytes
    of unconsumed data)"; lines are "newline-terminated". [is_input] is
    what the successive read(2) calls on the descriptor find, a read that
    finds nothing being the end of the stream. *)
Record istream := IStream {
  is_handle : Z;
  is_input : list (list Byte.byte);
  is_buffer : list Byte.byte;
  is_max_buffer_size : Z;
}.

Definition i_stream_create_file (handle : Z) (input : list (list Byte.byte))
    (max_buffer_size : Z) : istream :=
  IStream handle input [] max_buffer_size.

(** Returns -2 when the buffer is full, -1 at the end of the stream and
    the number of bytes added to the buffer otherwise. *)
Definition i_stream_read (input : istream) : Z * istream :=
  if decide (is_max_buffer_size input ≤ Z.of_nat (length (is_buffer input)))
  then (-2, input)
  else
    match is_input input with
    | [] => (-1, input)
    | [] :: _ => (-1, input)
    | (b :: chunk) :: rest =>
        let room :=
          Z.to_nat (is_max_buffer_size input - Z.of_nat (length (is_buffer input))) in
        let got := take room (b :: chunk) in
        let left := drop room (b :: chunk) in
        (Z.of_nat (length got),
         IStream (is_handle input)
                 (match left with [] => rest | _ => left :: rest end)
                 (is_buffer input ++ got) (is_max_buffer_size input))
    end.

(** The bytes before the first newline and the bytes after it. *)
Fixpoint split_line (buf : list Byte.byte)
    : option (list Byte.byte * list Byte.byte) :=
  match buf with
  | [] => None
  | b :: r =>
      if decide (b = LF) then Some ([], r)
      else match split_line r with
           | Some (line, r') => Some (b :: line, r')
           | None => None
           end
  end.

(** NULL when the buffer holds no complete line. *)
Definition i_stream_next_line (input : istream)
    : option (list Byte.byte) * istream :=
  match split_line (is_buffer input) with
  | Some (line, rest) =>
      (Some line,
       IStream (is_handle input) (is_input input) rest (is_max_buffer_size input))
  | None => (None, input)
  end.

(** [*line != '\0'] *)
Definition line_nonempty (line : list Byte.byte) : bool :=
  match line with
  | [] => false
  | b :: _ => bool_decide (b ≠ Byte.x00)
  end.

Definition inspect {A} (a : A) : {b : A | a = b} := exist _ a eq_refl.

(** The bytes the descriptor still holds. *)
Definition pending_input (input : istream) : nat :=
  length (concat (is_input input)).

(** [while ((line = i_stream_next_line(input)) != NULL && *line != '\0')
    env_put(line);] with the value of [line] when the loop ends. *)
Equations? read_env_lines (input : istream) (p : proc)
    : option (list Byte.byte) * istream * proc
    by wf (length (is_buffer input)) lt :=
  read_env_lines input p with inspect (i_stream_next_line input) := {
    | exist _ (None, input1) _ => (None, input1, p)
    | exist _ (Some line, input1) H =>
        if line_nonempty line then read_env_lines input1 (env_put line p)
        else (Some line, input1, p) }.
Proof.
  clear read_env_lines.
  unfold i_stream_next_line in H.
  destruct (split_line (is_buffer input)) as [[l r]|] eqn:E; [|done].
  injection H as -> <-. simpl.
  revert line r E. generalize (is_buffer input) as buf.
  induction buf as [|b buf IH]; simpl; intros l r E; [done|].
  destruct (decide (b = LF)).
  - injection E as <- <-. lia.
  - destruct (split_line buf) as [[l' r']|]; [|done].
    injection E as <- <-. specialize (IH _ _ eq_refl). lia.
Defined.

(** The [do { switch (i_stream_read(input)) ... } while (line == NULL)]
    loop of master_read_env. *)
Equations? read_env_loop (input : istream) (p : proc) : outcome unit * proc
    by wf (pending_input input) lt :=
  read_env_loop input p with inspect (i_stream_read input) := {
    | exist _ (ret, input1) Hread with decide (ret = -1) := {
      | left _ =>
          i_fatal "EOF while reading environment from master"
                  (sys (SysRead (is_handle input) ret) p)
      | right Heof with decide (ret = -2) := {
        | left _ =>
            i_fatal "Too large environment line from master"
                    (sys (SysRead (is_handle input) ret) p)
        | right Hfull
            with inspect (read_env_lines input1
                            (sys (SysRead (is_handle input) ret) p)) := {
          | exist _ (None, input2, p2) Hlines => read_env_loop input2 p2
          | exist _ (Some _, input2, p2) _ => (Ok tt, p2) } } } }.
Proof.
  clear read_env_loop.
  assert (Hsame : ∀ i q i2 q2,
            read_env_lines i q = (None, i2, q2) → is_input i2 = is_input i).
  { clear. intros i q. funelim (read_env_lines i q); intros i2 q2 Hl;
      repeat match goal with E : sigmaI _ _ _ = _ |- _ => clear E end;
      clear Heqcall;
      match goal with E : i_stream_next_line ?x = _ |- _ =>
        unfold i_stream_next_line in E;
        destruct (split_line (is_buffer x)) as [[l r]|]
      end; simplify_eq.
    - destruct (line_nonempty _); [|done].
      match goal with IH : ∀ _ _, _ → _ = _ |- _ => by rewrite (IH _ _ Hl) end.
    - done. }
  apply Hsame in Hlines as Hsame'.
  unfold pending_input. rewrite Hsame'. clear Hsame Hsame' Hlines.
  unfold i_stream_read in Hread.
  destruct (decide (is_max_buffer_size input ≤ Z.of_nat (length (is_buffer input))));
    [by injection Hread as <- _|].
  destruct (is_input input) as [|[|b chunk] rest] eqn:E;
    [by injection Hread as <- _ | by injection Hread as <- _ |].
  injection Hread as _ <-. simpl is_input.
  set (room := Z.to_nat (is_max_buffer_size input
                         - Z.of_nat (length (is_buffer input)))) in *.
  assert (Hroom : (0 < room)%nat) by (unfold room; lia).
  destruct room as [|room]; [lia|]. simpl drop.
  destruct (drop room chunk) as [|x left] eqn:Ed.
  - simpl. rewrite length_app. lia.
  - rewrite <- Ed. simpl. rewrite !length_app, length_drop.
    assert (length (drop room chunk) ≠ 0)%nat by (rewrite Ed; done).
    rewrite length_drop in H. lia.
Defined.

Definition master_read_env (handle : Z) (data : list (list Byte.byte)) : run unit :=
  fun p =>
    let p1 := env_clean p in
    (* read environment variable lines until empty line comes *)
    let input := i_stream_create_file handle data 8192 in
    read_env_loop input p1.

(** ** Connection bootstrap *)

(** What fork, dup2, setsid and execv answer in one master_exec. *)
Record os_exec := OsExec {
  fork_ret : Z;
  dup2_ret : Z;
  setsid_ret : Z;
  execv_replaces : bool;
}.

(** What the operating system answers during one master_connect: the
    results of the calls made in loop iteration [i], of write_full, and
    the data the master sends on the connected descriptor. *)
Record os := OS {
  net_connect_unix : nat -> Z * errno;
  unlink : nat -> Z;
  net_listen_unix : nat -> Z * errno;
  spawn : nat -> os_exec;
  write_full : Z;
  master_data : list (list Byte.byte);
}.

(** [(unsigned char)z] *)
Definition uchar (z : Z) : Byte.byte :=
  default Byte.x00 (Byte.of_N (Z.to_N (z mod 256))).

Definition bytes (s : string) : list Byte.byte := String.list_byte_of_string s.

Section Bootstrap.

Variable pf : platform.

Definition master_path : string := PKG_RUNDIR pf +:+ "/master".
Definition dovecot_path : string := SBINDIR pf +:+ "/dovecot".

Definition master_exec (o : os_exec) (handle : Z) : run unit := fun p =>
  let p1 := sys SysFork p in
  if decide (fork_ret o = -1) then (Fatal "fork() failed", p1)
  else if decide (fork_ret o = 0) then
    let p2 := sys (SysDup2 handle 0) p1 in
    if decide (dup2_ret o < 0) then (Fatal "master_exec: dup2 failed", p2) else
    let p3 := sys (SysClose handle) p2 in
    let p4 := sys SysSetsid p3 in
    if decide (setsid_ret o < 0) then (Fatal "setsid() failed", p4) else
    let p5 := env_put (bytes "DOVECOT_INETD=1") p4 in
    let p6 := sys (SysExecv dovecot_path) p5 in
    if execv_replaces o then (Exec dovecot_path, p6)
    else (Fatal "execv failed", p6)
  else
    (Ok (), sys (SysClose handle) p1).

(** One iteration of the connect loop; the result is the value of [fd]
    when the iteration ends. *)
Definition connect_attempt (o : os) (i : nat) : run Z := fun p =>
  let '(handle, err) := net_connect_unix o i in
  let p1 := sys (SysConnect master_path) p in
  if decide (handle ≠ -1) then (Ok handle, p1) else
  let after_connect : outcome unit * proc :=
    if decide (err = ECONNREFUSED) then
      let p2 := sys (SysUnlink master_path) p1 in
      if decide (unlink o i < 0)
      then (Ok (), sys (LogError "unlink failed") p2)
      else (Ok (), p2)
    else if decide (err ≠ ENOENT) then
      (Fatal "Can't connect to master UNIX socket", p1)
    else (Ok (), p1) in
  (_ ⇐ (fun _ => after_connect) ;;
   (* need to create it *)
   fun p3 =>
     let '(lhandle, lerr) := net_listen_unix o i in
     let p4 := sys (SysListen master_path) p3 in
     if decide (lhandle ≠ -1) then
       (_ ⇐ master_exec (spawn o i) lhandle ;; fun p5 => (Ok (-1), p5)) p4
     else if decide (lerr ≠ EADDRINUSE) then
       (Fatal "Can't create master UNIX socket", p4)
     else (Ok (-1), p4)) p.

(** [for (i = 0; i < 5 && fd == -1; i++)] with [n] iterations left. *)
Fixpoint connect_loop (o : os) (n : nat) (i : nat) : run Z :=
  match n with
  | O => fun p => (Ok (-1), p)
  | S n' =>
      handle ⇐ connect_attempt o i ;;
      if decide (handle = -1) then connect_loop o n' (S i)
      else fun p => (Ok handle, p)
  end.

(** [group_name[0] == '\0'] *)
Definition first_is_nul (bs : list Byte.byte) : bool :=
  match bs with
  | [] => true
  | b :: _ => bool_decide (b = Byte.x00)
  end.

Definition master_connect (o : os) (group_name : list Byte.byte) : run Z :=
  handle ⇐ connect_loop o 5 0 ;;
  if decide (handle = -1) then i_fatal "Couldn't use/create UNIX socket" else
  if first_is_nul group_name then i_fatal "No login group name set" else
  if decide (strlen group_name >= 256) then
    i_fatal "Login group name too large"
  else
    (* group_name length is now guaranteed to be in range of 1..255 so we
       can send <length byte><name> *)
    let frame := uchar (strlen group_name) :: c_str group_name in
    fun p =>
      let p1 := sys (SysWrite handle (c_str frame)) p in
      if decide (write_full o < 0) then
        (Fatal "write_full(master_fd) failed", p1)
      else
        (_ ⇐ master_read_env handle (master_data o) ;;
         fun p2 => (Ok handle, p2)) p1.

End Bootstrap.

(** ** Definitions that follow the wording of the specification *)

Section AsSpecified.

Variable pf : platform.
Variable callbacks : callback_ptr -> client_ptr -> Z -> state -> outcome state.

(** Reply dispatch in the order the specification gives: "remove the
    PendingRequest from the table first, then invoke its callback with
    the success flag". Compared with [request_handle] below. *)
Definition request_handle_remove_first (reply : master_login_reply) (s : state)
    : outcome state :=
  match hash_lookup (reply_tag reply) s with
  | None => Fatal "Master sent reply with unknown tag"
  | Some c =>
      match clients s !! c with
      | None => Fault
      | Some cl =>
          let s0 := hash_remove (reply_tag reply) s in
          let s1 := client_store c 0 None s0 in
          match master_callback cl with
          | None => Fault
          | Some cb =>
              callbacks cb c (reply_success reply)
                (log (EvCallback cb c (reply_success reply)) s1)
          end
      end
  end.

(** One connect attempt in the words of the specification: on
    connection-refused "remove the stale socket file and retry"; when
    "the path does not exist: try to become the listener". Compared with
    [connect_attempt] below. *)
Definition connect_attempt_as_specified (o : os) (i : nat) : run Z := fun p =>
  let '(handle, err) := net_connect_unix o i in
  let p1 := sys (SysConnect (master_path pf)) p in
  if decide (handle ≠ -1) then (Ok handle, p1) else
  if decide (err = ECONNREFUSED) then
    (Ok (-1), sys (SysUnlink (master_path pf)) p1)
  else if decide (err ≠ ENOENT) then
    (Fatal "Can't connect to master UNIX socket", p1)
  else
    let '(lhandle, lerr) := net_listen_unix o i in
    let p4 := sys (SysListen (master_path pf)) p1 in
    if decide (lhandle ≠ -1) then
      (_ ⇐ master_exec pf (spawn o i) lhandle ;; fun p5 => (Ok (-1), p5)) p4
    else if decide (lerr ≠ EADDRINUSE) then
      (Fatal "Can't create master UNIX socket", p4)
    else (Ok (-1), p4).

End AsSpecified.

(** ** Runs of the correlator *)

(** The arguments of one master_request_login call and what fd_send
    returns in it. *)
Record login_call := LoginCall {
  lc_client : client_ptr;
  lc_callback : callback_ptr;
  lc_auth_pid : Z;
  lc_auth_id : Z;
  lc_send_ret : Z;
}.

(** A sequence of master_request_login calls with nothing in between. *)
Fixpoint request_logins (pf : platform) (calls : list login_call) (s : state)
    : outcome state :=
  match calls with
  | [] => Ok s
  | call :: rest =>
      s1 ← master_request_login pf (lc_send_ret call) (lc_client call)
             (lc_callback call) (lc_auth_pid call) (lc_auth_id call) s;
      request_logins pf rest s1
  end.

(** The tags of the requests sent so far, oldest first. *)
Definition login_tags (tr : list event) : list Z :=
  omap (λ e, match e with
             | EvFdSend _ _ req _ => Some (req_tag req)
             | _ => None
             end) tr.



(** The tag handed out when the counter holds [c], and the tags of [n]
    allocations in a row. *)
Definition tag_after (c : Z) : Z :=
  let v := to_uint (c + 1) in
  if decide (v = 0) then to_uint (v + 1) else v.

Fixpoint tags_from (c : Z) (n : nat) : list Z :=
  match n with
  | O => []
  | S n' => tag_after c :: tags_from (tag_after c) n'
  end.

(** The lines of an environment bootstrap as they travel on the channel. *)
Definition encode_lines (lines : list (list Byte.byte)) : list Byte.byte :=
  concat ((λ l, l ++ [LF]) <$> lines).

(** A line the loader takes as an assignment: no newline inside, first
    byte present and not NUL, short enough for the buffer. *)
Definition env_line (cap : Z) (l : list Byte.byte) : Prop :=
  (LF ∉ l) ∧ (line_nonempty l = true) ∧ (Z.of_nat (length l) < cap).

Definition is_connect (e : syscall) : bool :=
  match e with SysConnect _ => true | _ => false end.

Definition count_connects (tr : list syscall) : nat :=
  length (List.filter is_connect tr).

Definition is_channel_io (e : syscall) : Prop :=
  match e with
  | SysWrite _ _ | SysRead _ _ => True
  | _ => False
  end.

(** ** Concrete processes used in examples *)

Definition example_platform : platform :=
  {| sizeof_request := 56; MASTER_LOGIN_PROTOCOL_VERSION := 1;
     PKG_RUNDIR := "/var/run/dovecot"; SBINDIR := "/usr/sbin" |}.

Definition example_ip (last : Byte.byte) : ip_addr :=
  IpAddr 2 [Byte.x0a; Byte.x00; Byte.x00; last].

(** A client that has not asked the master anything yet. *)
Definition idle_client (handle : Z) : client :=
  {| fd := handle; local_ip := example_ip Byte.x01; ip := example_ip Byte.x02;
     master_tag := 0; master_callback := None |}.

(** The process after master_init(3, FALSE) with [n] idle clients at the
    addresses 1..n, client [k] holding descriptor [10 + k]. *)
Fixpoint idle_clients (n : nat) : gmap client_ptr client :=
  match n with
  | O => ∅
  | S n' => <[S n' := idle_client (10 + Z.of_nat (S n'))]> (idle_clients n')
  end.

Definition started (n : nat) : state :=
  {| master_fd := 3; io_master := Some 1%nat; master_requests := ∅;
     master_tag_counter := 0; master_pos := 0;
     master_buf := replicate (Z.to_nat sizeof_reply) Byte.x00;
     clients := idle_clients n; trace := [] |}.


Definition quiet_callbacks
    : callback_ptr -> client_ptr -> Z -> state -> outcome state :=
  fun _ _ _ s => Ok s.

(** A callback that asks the master again for the same client. *)
Definition retry_callbacks
    : callback_ptr -> client_ptr -> Z -> state -> outcome state :=
  fun cb c _ s => master_request_login example_platform 56 c cb 1 1 s.

(** The process with client 1 waiting for the reply to tag 1. *)
Definition one_pending : state :=
  {| master_fd := 3; io_master := Some 1%nat;
     master_requests := {[ 1 := 1%nat ]};
     master_tag_counter := 1; master_pos := 0;
     master_buf := replicate (Z.to_nat sizeof_reply) Byte.x00;
     clients := {[ 1%nat := set_master 1 (Some 0%nat) (idle_client 11) ]};
     trace := [EvFdSend 3 11
                 (MasterLoginRequest 1 1 1 1 (example_ip Byte.x01)
                    (example_ip Byte.x02)) 56] |}.

(** Two clients wait for the master, a third does not, and the master
    goes away. *)
Definition two_pending : state :=
  {| master_fd := 3; io_master := Some 1%nat;
     master_requests := {[ 1 := 1%nat; 2 := 2%nat ]};
     master_tag_counter := 2; master_pos := 0;
     master_buf := replicate (Z.to_nat sizeof_reply) Byte.x00;
     clients := {[ 1%nat := set_master 1 (Some 0%nat) (idle_client 11);
                   2%nat := set_master 2 (Some 0%nat) (idle_client 12);
                   3%nat := idle_client 13 ]};
     trace := [] |}.

(** The stream with its buffer replaced. *)
Definition set_buffer (buf : list Byte.byte) (input : istream) : istream :=
  IStream (is_handle input) (is_input input) buf (is_max_buffer_size input).

(** The environment after merging the given lines in order. *)
Definition merge_lines (env : list (list Byte.byte)) (lines : list (list Byte.byte))
    : list (list Byte.byte) :=
  foldl (λ e l, env_merge (c_str l) e) env lines.

(** How the stream goes on after the assignment lines, and how the loader
    ends in each case. *)
Inductive stream_end (cap : Z) : list Byte.byte -> outcome unit -> Prop :=
| EndTerminated rest :
    stream_end cap (LF :: rest) (Ok ())
| EndOfStream part :
    LF ∉ part → Z.of_nat (length part) < cap →
    stream_end cap part (Fatal "EOF while reading environment from master")
| EndTooLarge big rest :
    LF ∉ big → Z.of_nat (length big) = cap →
    stream_end cap (big ++ rest) (Fatal "Too large environment line from master").

(** The bootstrap of the specification's example: two assignments and the
    empty line. *)
Definition example_env_lines : list (list Byte.byte) :=
  [bytes "MAIL=/var/mail"; bytes "HOME=/home"].

Definition example_env_stream : list Byte.byte :=
  encode_lines example_env_lines ++ [LF].

(** A process whose environment holds something from before. *)
Definition example_proc : proc :=
  {| environ := [bytes "PATH=/bin"; bytes "MAIL=/old"]; syscalls := [] |}.

(** The block of connect_attempt under "need to create it", run from the
    process [q]: listen on the path, start the supervisor when that
    worked, go on when another process was faster, die otherwise. The
    result is the value of [fd] when the iteration ends. *)
Definition create_master_socket (pf : platform) (o : os) (i : nat) : run Z := fun q =>
  let q1 := sys (SysListen (master_path pf)) q in
  if decide ((net_listen_unix o i).1 ≠ -1) then
    (_ ⇐ master_exec pf (spawn o i) (net_listen_unix o i).1 ;;
     fun q2 => (Ok (-1), q2)) q1
  else if decide ((net_listen_unix o i).2 ≠ EADDRINUSE) then
    (Fatal "Can't create master UNIX socket", q1)
  else (Ok (-1), q1).

(** No socket file yet: connect fails with ENOENT, this process creates
    the socket, starts the supervisor (fork gives the parent pid 100) and
    connects at the second attempt; the master then sends an empty
    bootstrap. *)
Definition os_missing_socket : os :=
  {| net_connect_unix :=
       λ i, match i with O => (-1, ENOENT) | _ => (4, ENOENT) end;
     unlink := λ _, 0;
     net_listen_unix := λ _, (9, ENOENT);
     spawn := λ _, OsExec 100 0 0 true;
     write_full := 0;
     master_data := [[LF]] |}.

(** A socket file nobody listens on: the first connect is refused. *)
Definition os_stale_socket : os :=
  {| net_connect_unix :=
       λ i, match i with O => (-1, ECONNREFUSED) | _ => (4, ENOENT) end;
     unlink := λ _, 0;
     net_listen_unix := λ _, (9, ENOENT);
     spawn := λ _, OsExec 100 0 0 true;
     write_full := 0;
     master_data := [[LF]] |}.

(** The master is there and answers the first connect. *)
Definition os_master_running : os :=
  {| net_connect_unix := λ _, (4, ENOENT);
     unlink := λ _, 0;
     net_listen_unix := λ _, (-1, EADDRINUSE);
     spawn := λ _, OsExec 100 0 0 true;
     write_full := 0;
     master_data := [example_env_stream] |}.

Definition fresh_proc : proc := {| environ := []; syscalls := [] |}.

(** The outcome of [r] with the value [b] in place of its result. *)
Definition and_return {A B} (r : outcome A * proc) (b : B) : outcome B * proc :=
  (_ ← r.1; Ok b, r.2).

(** ** Shutdown *)

(** [hash_destroy(master_requests)] leaves no table behind; the other
    statics keep what they hold. *)
Definition master_deinit (s : state) : state :=
  let s1 := set_master_requests ∅ s in
  match io_master s1 with
  | Some io => log (EvIoRemove io) s1
  | None => s1
  end.

(** ** Agreement of the correlation table and the clients *)

(** Every entry of the table leads to a live client that carries the
    entry's tag and a callback, every live client with a nonzero tag has
    its entry, and 0 is not a key. *)
Definition consistent (s : state) : Prop :=
  (∀ tag c, hash_lookup tag s = Some c →
     ∃ cl, clients s !! c = Some cl ∧ master_tag cl = tag ∧
           is_Some (master_callback cl)) ∧
  (∀ c cl, clients s !! c = Some cl → master_tag cl ≠ 0 →
     hash_lookup (master_tag cl) s = Some c) ∧
  hash_lookup 0 s = None.

(** The io handles removed so far, oldest first. *)
Definition io_removed (tr : list event) : list io_ptr :=
  omap (λ e, match e with
             | EvIoRemove io => Some io
             | _ => None
             end) tr.

(** The records sent to the master so far with the descriptor passed
    along, oldest first. *)
Definition requests_sent (tr : list event) : list (Z * master_login_request) :=
  omap (λ e, match e with
             | EvFdSend _ send_fd req _ => Some (send_fd, req)
             | _ => None
             end) tr.

(** The record master_notify_finished sends: the version and zeros. *)
Definition notify_request (pf : platform) : master_login_request :=
  {| req_version := MASTER_LOGIN_PROTOCOL_VERSION pf;
     req_tag := 0; req_auth_pid := 0; req_auth_id := 0;
     req_local_ip := zero_ip; req_remote_ip := zero_ip |}.

(** The state in which request_handle invokes the callback of client
    [c]: the client's tag and callback are cleared, the entry is still in
    the table. *)
Definition callback_state (cb : callback_ptr) (c : client_ptr) (success : Z)
    (s : state) : state :=
  log (EvCallback cb c success) (client_store c 0 None s).

(** What the callback of client [c] did between [s1] and [s2] left the
    pending requests of the other clients, and those clients, alone. *)
Definition spares_others (c : client_ptr) (s1 s2 : state) : Prop :=
  ∀ tag c', c' ≠ c → hash_lookup tag s1 = Some c' →
    hash_lookup tag s2 = Some c' ∧ clients s2 !! c' = clients s1 !! c'.

(** What the callback of client [c] did between [s1] and [s2] settled
    that client only: the other clients and their entries are as they
    were, no entry was added, and the client itself is as before or
    gone. *)
Definition settles_own_client (c : client_ptr) (s1 s2 : state) : Prop :=
  (∀ c', c' ≠ c → clients s2 !! c' = clients s1 !! c') ∧
  (∀ tag c', c' ≠ c → hash_lookup tag s1 = Some c' → hash_lookup tag s2 = Some c') ∧
  (∀ tag c', hash_lookup tag s2 = Some c' → hash_lookup tag s1 = Some c') ∧
  (clients s2 !! c = clients s1 !! c ∨ clients s2 !! c = None).

(** A callback that destroys its client, as the login handlers do once
    the master has answered. *)
Definition destroy_callbacks
    : callback_ptr -> client_ptr -> Z -> state -> outcome state :=
  fun _ c _ s => Ok (client_destroy c s).

(** Three idle clients and a tag counter two steps before its wrap. *)
Definition near_wrap : state := set_master_tag_counter (uint_max - 2) (started 3).

(** A line the loader puts into the environment, and a line at which it
    stops, by their bytes: no newline inside, short enough for the
    buffer, and the first byte present and not NUL for the one, absent or
    NUL for the other. *)
Definition assignment_line (cap : Z) (l : list Byte.byte) : Prop :=
  (LF ∉ l) ∧ (∃ b r, l = b :: r ∧ b ≠ Byte.x00) ∧ (Z.of_nat (length l) < cap).

Definition stop_line (cap : Z) (l : list Byte.byte) : Prop :=
  (LF ∉ l) ∧ (l = [] ∨ ∃ r, l = Byte.x00 :: r) ∧ (Z.of_nat (length l) < cap).

(** How the stream goes on after the assignment lines when a stop line
    may be any line the loop's test [*line != 0] rejects. *)
Inductive loader_end (cap : Z) : list Byte.byte -> outcome unit -> Prop :=
| LoaderStopped stop rest :
    stop_line cap stop →
    loader_end cap (stop ++ LF :: rest) (Ok ())
| LoaderEndOfStream part :
    LF ∉ part → Z.of_nat (length part) < cap →
    loader_end cap part (Fatal "EOF while reading environment from master")
| LoaderTooLarge big rest :
    LF ∉ big → Z.of_nat (length big) = cap →
    loader_end cap (big ++ rest) (Fatal "Too large environment line from master").

(** The loader in the words of the specification: the lines up to the
    first empty line, every one of them put into the emptied
    environment. *)
Fixpoint lines_until_empty (lines : list (list Byte.byte)) : list (list Byte.byte) :=
  match lines with
  | [] => []
  | [] :: _ => []
  | l :: rest => l :: lines_until_empty rest
  end.

Definition master_read_env_as_specified (lines : list (list Byte.byte))
    (p : proc) : proc :=
  foldl (λ q l, env_put l q) (env_clean p) (lines_until_empty lines).

(** An iteration of the connect loop that ends without a descriptor and
    without stopping the process: the connect fails because nobody
    listens or the path is missing, and then either this process creates
    the socket and is the parent of the supervisor it starts, or another
    process was faster. *)
Definition attempt_retries (o : os) (i : nat) : Prop :=
  (net_connect_unix o i).1 = -1 ∧
  ((net_connect_unix o i).2 = ECONNREFUSED ∨ (net_connect_unix o i).2 = ENOENT) ∧
  (((net_listen_unix o i).1 ≠ -1 ∧
    fork_ret (spawn o i) ≠ -1 ∧ fork_ret (spawn o i) ≠ 0) ∨
   ((net_listen_unix o i).1 = -1 ∧ (net_listen_unix o i).2 = EADDRINUSE)).

(** * Properties *)

(** ** Tag allocation *)

Lemma next_tag_eq s :
  next_tag s = (tag_after (master_tag_counter s),
                set_master_tag_counter (tag_after (master_tag_counter s)) s).
Proof.
  unfold next_tag, incr_tag_counter, tag_after.
  destruct (decide (to_uint (master_tag_counter s + 1) = 0)) as [E|E];
    [|done].
  simpl. by rewrite E.
Qed.

Lemma to_uint_range z : 0 ≤ to_uint z < uint_max.
Proof. unfold to_uint, uint_max. apply Z.mod_pos_bound. lia. Qed.

Lemma tag_after_range c : 0 < tag_after c < uint_max.
Proof.
  unfold tag_after.
  destruct (decide (to_uint (c + 1) = 0)) as [E|E].
  - rewrite E. change (to_uint (0 + 1)) with 1. unfold uint_max. lia.
  - pose proof (to_uint_range (c + 1)). lia.
Qed.

Lemma tag_after_nonzero c : tag_after c ≠ 0.
Proof. pose proof (tag_after_range c). lia. Qed.

(** ** master_request_login *)

Lemma master_request_login_ok pf send_ret c cb auth_pid auth_id s cl :
  auth_pid ≠ 0 →
  clients s !! c = Some cl →
  send_ret = sizeof_request pf →
  let tag := tag_after (master_tag_counter s) in
  master_request_login pf send_ret c cb auth_pid auth_id s =
    Ok {| master_fd := master_fd s;
          io_master := io_master s;
          master_requests := <[tag := c]> (master_requests s);
          master_tag_counter := tag;
          master_pos := master_pos s;
          master_buf := master_buf s;
          clients := alter (set_master tag (Some cb)) c (clients s);
          trace := trace s ++
            [EvFdSend (master_fd s) (fd cl)
               (MasterLoginRequest (MASTER_LOGIN_PROTOCOL_VERSION pf) tag
                  auth_pid auth_id (local_ip cl) (ip cl)) send_ret] |}.
Proof.
  intros Hpid Hc Hret tag. unfold master_request_login.
  rewrite decide_False by done. rewrite next_tag_eq. simpl. rewrite Hc.
  rewrite decide_False by (intros ?; done). done.
Qed.

Lemma master_request_login_short pf send_ret c cb auth_pid auth_id s cl :
  auth_pid ≠ 0 →
  clients s !! c = Some cl →
  send_ret ≠ sizeof_request pf →
  master_request_login pf send_ret c cb auth_pid auth_id s = Fatal "fd_send failed".
Proof.
  intros Hpid Hc Hret. unfold master_request_login.
  rewrite decide_False by done. rewrite next_tag_eq. simpl. rewrite Hc.
  by rewrite decide_True.
Qed.

(** C5. Under [auth_pid != 0], master_request_login builds the request
    with the fresh tag, auth_pid, auth_id and the client's local and remote
    addresses, hands it to fd_send together with the client's descriptor,
    dies when fd_send returns anything but the record size (fewer bytes in
    particular), and otherwise stores the tag and the callback in the
    client, whose other fields stay as they are, and inserts the client
    under the tag. *)
Theorem master_request_login_sends_then_records
    pf send_ret c cb auth_pid auth_id s cl :
  auth_pid ≠ 0 →
  clients s !! c = Some cl →
  let tag := tag_after (master_tag_counter s) in
  let req := MasterLoginRequest (MASTER_LOGIN_PROTOCOL_VERSION pf) tag
               auth_pid auth_id (local_ip cl) (ip cl) in
  tag ≠ 0 ∧
  (send_ret < sizeof_request pf →
     master_request_login pf send_ret c cb auth_pid auth_id s
     = Fatal "fd_send failed") ∧
  (send_ret = sizeof_request pf →
     ∃ s', master_request_login pf send_ret c cb auth_pid auth_id s = Ok s' ∧
       trace s' = trace s ++ [EvFdSend (master_fd s) (fd cl) req send_ret] ∧
       hash_lookup tag s' = Some c ∧
       (∀ t, t ≠ tag → hash_lookup t s' = hash_lookup t s) ∧
       (∃ cl', clients s' !! c = Some cl' ∧
          master_tag cl' = tag ∧ master_callback cl' = Some cb ∧
          fd cl' = fd cl ∧ local_ip cl' = local_ip cl ∧ ip cl' = ip cl) ∧
       (∀ c', c' ≠ c → clients s' !! c' = clients s !! c') ∧
       master_tag_counter s' = tag).
Proof.
  intros Hpid Hc tag req. split; [apply tag_after_nonzero|]. split.
  - intros Hlt. eapply master_request_login_short; eauto. lia.
  - intros Hret. eexists. split.
    { eapply master_request_login_ok; eauto. }
    simpl. unfold hash_lookup. simpl. repeat split.
    + apply lookup_insert_eq.
    + intros t Ht. by rewrite lookup_insert_ne.
    + exists (set_master tag (Some cb) cl).
      rewrite lookup_alter_eq, Hc. by destruct cl.
    + intros c' Hc'. by rewrite lookup_alter_ne.
Qed.

Lemma master_request_login_sends_then_records_witness :
  (∃ s', master_request_login example_platform 56 1%nat 0%nat 1 1 (started 1)
         = Ok s' ∧
         trace s' = [EvFdSend 3 11
                       (MasterLoginRequest 1 1 1 1 (example_ip Byte.x01)
                          (example_ip Byte.x02)) 56] ∧
         hash_lookup 1 s' = Some 1%nat ∧
         ∃ cl', clients s' !! 1%nat = Some cl' ∧
                master_tag cl' = 1 ∧ master_callback cl' = Some 0%nat ∧
                fd cl' = 11)
  ∧ master_request_login example_platform 40 1%nat 0%nat 1 1 (started 1)
    = Fatal "fd_send failed".
Proof.
  split.
  - destruct (master_request_login_sends_then_records example_platform 56
                1%nat 0%nat 1 1 (started 1) (idle_client 11))
      as (_ & _ & H); [lia | reflexivity |].
    destruct (H eq_refl)
      as (s' & E & Ht & Hl & _ & (cl' & Hc & Htag & Hcb & Hfd & _) & _).
    exists s'. split; [exact E|]. split; [exact Ht|]. split; [exact Hl|].
    exists cl'. auto.
  - destruct (master_request_login_sends_then_records example_platform 40
                1%nat 0%nat 1 1 (started 1) (idle_client 11))
      as (_ & H & _); [lia | reflexivity |].
    apply H. simpl. lia.
Defined.

(** ** Reply dispatch *)



Lemma hash_lookup_remove tag s : hash_lookup tag (hash_remove tag s) = None.
Proof. unfold hash_lookup, hash_remove. simpl. apply lookup_delete_eq. Qed.

Example started_reached :
  master_init example_platform 1%nat 56 3 false static_init = Ok (started 0).
Proof. vm_compute. reflexivity. Qed.



(** The same difference through the public functions alone: with the
    counter about to wrap to the tag being answered, a callback that sends
    a new request sees that request removed by the dispatcher. *)
Example request_handle_removes_reissued_request :
  let s := set_master_tag_counter (uint_max - 1) one_pending in
  (∃ s', request_handle retry_callbacks (MasterLoginReply 1 1) s = Ok s'
         ∧ hash_lookup 1 s' = None
         ∧ master_tag <$> clients s' !! 1%nat = Some 1)
  ∧ (∃ s', request_handle_remove_first retry_callbacks (MasterLoginReply 1 1) s
           = Ok s'
         ∧ hash_lookup 1 s' = Some 1%nat).
Proof. split; eexists; (split; [vm_compute; reflexivity|]); vm_compute; done. Qed.



(** ** master_request_abort *)



(** ** Tags of a run of requests *)

Lemma login_tags_app tr1 tr2 :
  login_tags (tr1 ++ tr2) = login_tags tr1 ++ login_tags tr2.
Proof. unfold login_tags. apply omap_app. Qed.

Lemma master_request_login_inv pf send_ret c cb auth_pid auth_id s s' :
  master_request_login pf send_ret c cb auth_pid auth_id s = Ok s' →
  login_tags (trace s') = login_tags (trace s) ++ [tag_after (master_tag_counter s)]
  ∧ master_tag_counter s' = tag_after (master_tag_counter s).
Proof.
  unfold master_request_login.
  destruct (decide (auth_pid = 0)); [done|].
  rewrite next_tag_eq. simpl.
  destruct (clients s !! c) as [cl|]; [|done].
  destruct (decide (send_ret ≠ sizeof_request pf)); [done|].
  intros [= <-]. simpl. by rewrite login_tags_app.
Qed.

Lemma request_logins_tags pf calls : ∀ s s',
  request_logins pf calls s = Ok s' →
  login_tags (trace s')
  = login_tags (trace s) ++ tags_from (master_tag_counter s) (length calls).
Proof.
  induction calls as [|call calls IH]; simpl; intros s s' H.
  - injection H as <-. by rewrite app_nil_r.
  - destruct (master_request_login pf (lc_send_ret call) (lc_client call)
                (lc_callback call) (lc_auth_pid call) (lc_auth_id call) s)
      as [s1| | | |] eqn:E; try done.
    simpl in H. apply master_request_login_inv in E as [E1 E2].
    rewrite (IH _ _ H), E1, E2, <- app_assoc. done.
Qed.

Lemma length_tags_from n : ∀ c, length (tags_from c n) = n.
Proof. induction n as [|n IH]; simpl; intros c; [done|]. by rewrite IH. Qed.

(** The counter runs through 1 .. 2^32-1 in a cycle. *)
Lemma tag_after_cycle t :
  0 < t < uint_max → tag_after t - 1 = t mod (uint_max - 1).
Proof.
  intros Ht. unfold tag_after, to_uint, uint_max in *.
  destruct (decide (t = 2 ^ 32 - 1)) as [->|Hne].
  - vm_compute. reflexivity.
  - rewrite (Z.mod_small (t + 1)) by lia.
    rewrite decide_False by lia.
    rewrite (Z.mod_small t) by lia. lia.
Qed.

Lemma tags_from_lookup n : ∀ c k,
  (k < n)%nat →
  tags_from c n !! k
  = Some ((tag_after c - 1 + Z.of_nat k) mod (uint_max - 1) + 1).
Proof.
  induction n as [|n IH]; intros c k Hk; [lia|].
  pose proof (tag_after_range c) as Hr.
  destruct k as [|k]; simpl tags_from; simpl lookup.
  - f_equal. rewrite Z.add_0_r, Z.mod_small by (unfold uint_max in *; lia). lia.
  - rewrite IH by lia. f_equal. f_equal.
    rewrite tag_after_cycle by done.
    rewrite Zplus_mod_idemp_l. f_equal. lia.
Qed.

Lemma tags_from_NoDup c n :
  Z.of_nat n < uint_max → NoDup (tags_from c n).
Proof.
  intros Hn. apply NoDup_alt. intros i j t Hi Hj.
  assert (i < n)%nat as Hin
    by (apply lookup_lt_Some in Hi; by rewrite length_tags_from in Hi).
  assert (j < n)%nat as Hjn
    by (apply lookup_lt_Some in Hj; by rewrite length_tags_from in Hj).
  rewrite tags_from_lookup in Hi by done.
  rewrite tags_from_lookup in Hj by done.
  injection Hi as Hi. injection Hj as Hj.
  set (a := tag_after c - 1) in *.
  set (M := uint_max - 1) in *.
  assert (HM : 0 < M) by (unfold M, uint_max; lia).
  assert (Hmod : (a + Z.of_nat i) mod M = (a + Z.of_nat j) mod M) by lia.
  pose proof (Z.div_mod (a + Z.of_nat i) M ltac:(lia)) as Di.
  pose proof (Z.div_mod (a + Z.of_nat j) M ltac:(lia)) as Dj.
  rewrite Hmod in Di.
  assert (Hd : Z.of_nat i - Z.of_nat j
               = M * ((a + Z.of_nat i) `div` M - (a + Z.of_nat j) `div` M)) by lia.
  assert (Hb : - M < Z.of_nat i - Z.of_nat j < M) by (unfold M; lia).
  assert ((a + Z.of_nat i) `div` M - (a + Z.of_nat j) `div` M = 0) by nia.
  lia.
Qed.

Lemma tags_from_range c n : Forall (λ t, 0 < t < uint_max) (tags_from c n).
Proof.
  revert c. induction n as [|n IH]; simpl; intros c; constructor;
    [apply tag_after_range | apply IH].
Qed.

Lemma tags_from_step c n i t t' :
  tags_from c n !! i = Some t →
  tags_from c n !! S i = Some t' →
  t' = tag_after t.
Proof.
  revert c i. induction n as [|n IH]; intros c i; [done|].
  destruct i as [|i]; simpl.
  - intros [= <-]. destruct n; simpl; [done|]. by intros [= <-].
  - apply IH.
Qed.

Lemma tags_first_and_wrap n k :
  Z.of_nat k = uint_max - 1 →
  (k < n)%nat →
  tags_from 0 n !! 0%nat = Some 1 ∧ tags_from 0 n !! k = Some 1.
Proof.
  intros Hk Hn. split.
  - rewrite tags_from_lookup by lia. reflexivity.
  - rewrite tags_from_lookup by lia. rewrite Hk.
    vm_compute. reflexivity.
Qed.

Lemma started_no_tags n l :
  login_tags (trace (started n)) ++ tags_from (master_tag_counter (started n)) l
  = tags_from 0 l.
Proof. reflexivity. Qed.

(** C4, as stated, fails: 2^32 requests in a row, none completed, and the
    last one carries the tag of the first. *)
Lemma tags_repeat_after_wrap :
  ∃ s', request_logins example_platform
          (replicate (Z.to_nat uint_max) (LoginCall 1%nat 0%nat 1 1 56))
          (started 1) = Ok s'
        ∧ ¬ NoDup (login_tags (trace s')).
Proof.
  assert (Hrun : ∀ n s, is_Some (clients s !! 1%nat) →
            ∃ s', request_logins example_platform
                    (replicate n (LoginCall 1%nat 0%nat 1 1 56)) s = Ok s').
  { induction n as [|n IH]; intros s [cl Hcl]; simpl; [eauto|].
    erewrite master_request_login_ok by (done || exact Hcl).
    simpl. apply IH. simpl. rewrite lookup_alter_eq, Hcl. simpl. eauto. }
  destruct (Hrun (Z.to_nat uint_max) (started 1)) as [s' Hs'].
  { simpl. rewrite lookup_insert_eq. eauto. }
  exists s'. split; [exact Hs'|].
  apply request_logins_tags in Hs'. rewrite Hs', length_replicate.
  rewrite started_no_tags.
  intros Hnd. rewrite NoDup_alt in Hnd.
  generalize (tags_first_and_wrap (Z.to_nat uint_max) (Z.to_nat (uint_max - 1))).
  intros [H0 H1]; [unfold uint_max; lia | unfold uint_max; lia |].
  specialize (Hnd _ _ _ H0 H1). unfold uint_max in Hnd. lia.
Qed.

(** C4, amended. In a run of at most 2^32-1 master_request_login calls
    with nothing in between, the tags sent are pairwise distinct and never
    0; each is the successor of the one before, 2^32-1 being followed by 1
    (the counter wraps at 32 bits and steps over 0). *)
Theorem request_login_tags_distinct pf calls s s' :
  request_logins pf calls s = Ok s' →
  Z.of_nat (length calls) < uint_max →
  ∃ tags,
    login_tags (trace s') = login_tags (trace s) ++ tags ∧
    length tags = length calls ∧
    NoDup tags ∧
    Forall (λ t, 0 < t < uint_max) tags ∧
    (∀ i t t', tags !! i = Some t → tags !! S i = Some t' →
       t' = if decide (t = uint_max - 1) then 1 else t + 1).
Proof.
  intros Hrun Hlen.
  exists (tags_from (master_tag_counter s) (length calls)).
  split; [by apply request_logins_tags with pf|].
  split; [apply length_tags_from|].
  split; [by apply tags_from_NoDup|].
  split; [apply tags_from_range|].
  intros i t t' Hi Hj.
  rewrite (tags_from_step _ _ _ _ _ Hi Hj).
  assert (Ht : 0 < t < uint_max).
  { pose proof (tags_from_range (master_tag_counter s) (length calls)) as HF.
    rewrite Forall_forall in HF. apply HF. by eapply list_elem_of_lookup_2. }
  unfold tag_after, to_uint, uint_max in *.
  destruct (decide (t = 2 ^ 32 - 1)) as [->|Hne]; [vm_compute; reflexivity|].
  rewrite (Z.mod_small (t + 1)) by lia. by rewrite decide_False by lia.
Qed.

(** Three requests in a row from a counter two steps before its wrap: the
    tags are 2^32-1, 1 and 2. *)
Lemma request_login_tags_distinct_witness :
  ∃ s', request_logins example_platform
          [LoginCall 1%nat 0%nat 1 1 56; LoginCall 2%nat 0%nat 1 2 56;
           LoginCall 3%nat 0%nat 1 3 56] near_wrap = Ok s' ∧
    login_tags (trace s') = [4294967295; 1; 2] ∧
    NoDup (login_tags (trace s')) ∧
    Forall (λ t, 0 < t < uint_max) (login_tags (trace s')) ∧
    (∀ i t t', login_tags (trace s') !! i = Some t →
               login_tags (trace s') !! S i = Some t' →
               t' = if decide (t = uint_max - 1) then 1 else t + 1).
Proof.
  assert (Hrun : ∃ s', request_logins example_platform
            [LoginCall 1%nat 0%nat 1 1 56; LoginCall 2%nat 0%nat 1 2 56;
             LoginCall 3%nat 0%nat 1 3 56] near_wrap = Ok s').
  { eexists. vm_compute. reflexivity. }
  destruct Hrun as [s' Hrun]. exists s'. split; [exact Hrun|].
  destruct (request_login_tags_distinct example_platform _ near_wrap s' Hrun)
    as (tags & H1 & _ & H3 & H4 & H5).
  - vm_compute. reflexivity.
  - assert (Htags : tags = [4294967295; 1; 2]).
    { apply request_logins_tags in Hrun. rewrite Hrun in H1.
      apply app_inv_head in H1. subst tags. vm_compute. reflexivity. }
    rewrite H1. change (login_tags (trace near_wrap)) with (@nil Z).
    rewrite app_nil_l. subst tags.
    split; [reflexivity|]. split; [exact H3|]. split; [exact H4|exact H5].
Defined.

(** ** Teardown *)


Lemma elem_of_pending_clients s c :
  c ∈ pending_clients s ↔ ∃ cl, clients s !! c = Some cl ∧ master_tag cl ≠ 0.
Proof.
  unfold pending_clients. rewrite list_elem_of_fmap. split.
  - intros [[c' cl] [-> H]]. apply elem_of_map_to_list in H.
    apply map_lookup_filter_Some in H as [H1 H2]. eauto.
  - intros (cl & H1 & H2). exists (c, cl). split; [done|].
    apply elem_of_map_to_list. apply map_lookup_filter_Some. done.
Qed.

Lemma NoDup_pending_clients s : NoDup (pending_clients s).
Proof. apply NoDup_fst_map_to_list. Qed.

(** Destroying the clients of a duplicate-free list of live clients. *)
Lemma destroy_list l : ∀ s,
  NoDup l →
  (∀ c, c ∈ l → is_Some (clients s !! c)) →
  let s' := foldr client_destroy s l in
  trace s' = trace s ++ (EvClientDestroy <$> reverse l) ∧
  (∀ c, c ∈ l → clients s' !! c = None) ∧
  (∀ c, c ∉ l → clients s' !! c = clients s !! c) ∧
  (∀ t, hash_lookup t s = None → hash_lookup t s' = None) ∧
  (∀ c cl, c ∈ l → clients s !! c = Some cl →
           hash_lookup (master_tag cl) s' = None) ∧
  master_fd s' = master_fd s ∧ io_master s' = io_master s.
Proof.
  induction l as [|a l IH]; intros s Hnd Hlive; simpl.
  - rewrite app_nil_r. repeat split; try done.
    + intros c Hc. by apply elem_of_nil in Hc.
    + intros c cl Hc. by apply elem_of_nil in Hc.
  - apply NoDup_cons in Hnd as [Ha Hnd].
    destruct (IH s Hnd) as (Ht & Hin & Hout & Htab & Htag & Hfd & Hio).
    { intros c Hc. apply Hlive. by right. }
    set (s1 := foldr client_destroy s l) in *.
    destruct (Hlive a) as [cl Hcl]; [by left|].
    unfold client_destroy. rewrite (Hout a Ha), Hcl. simpl.
    split. { rewrite Ht, reverse_cons, fmap_app, <- app_assoc. done. }
    split. { intros c [->|Hc]%elem_of_cons; [apply lookup_delete_eq|].
             destruct (decide (a = c)) as [->|Hne]; [apply lookup_delete_eq|].
             rewrite lookup_delete_ne by done. by apply Hin. }
    split. { intros c Hc%not_elem_of_cons. destruct Hc as [Hc1 Hc2].
             rewrite lookup_delete_ne by done. by apply Hout. }
    split. { intros t Hnone. unfold hash_lookup in *. simpl.
             apply lookup_delete_None. right. by apply Htab. }
    split. { intros c cl' [->|Hc]%elem_of_cons Hc'.
             - rewrite Hcl in Hc'. injection Hc' as <-.
               unfold hash_lookup. simpl. apply lookup_delete_eq.
             - unfold hash_lookup. simpl. apply lookup_delete_None. right.
               by eapply Htag. }
    done.
Qed.








(** ** One wake of the liveness monitor *)

Lemma to_uint_small z : 0 ≤ z < uint_max → to_uint z = z.
Proof. intros H. unfold to_uint. by apply Z.mod_small. Qed.

Lemma take_list_inserts {A} (l k : list A) i :
  take i (list_inserts i k l) = take i l.
Proof.
  apply list_eq. intros j.
  destruct (decide (j < i)%nat) as [Hlt|Hge].
  - rewrite !lookup_take_lt by done. by apply list_lookup_inserts_lt.
  - rewrite !lookup_take_ge by lia. done.
Qed.

(** C3, as stated, fails twice: a receive result of 0 leaves the channel
    and every client as they were, where teardown would have destroyed the
    waiting client; and a positive result smaller than a record that
    completes the record (4 bytes on top of 4) dispatches the reply. *)
Lemma master_input_zero_is_not_loss :
  master_input quiet_callbacks 0 [] 0 one_pending = Ok one_pending
  ∧ io_master one_pending = Some 1%nat
  ∧ (∃ s', master_close 0 one_pending = Ok s' ∧ io_master s' = None
           ∧ clients s' !! 1%nat = None)
  ∧ master_input quiet_callbacks 4 [Byte.x01; Byte.x00; Byte.x00; Byte.x00] 0
      (set_master_pos 4 (started 1))
    = Fatal "Master sent reply with unknown tag".
Proof.
  split; [vm_compute; reflexivity|]. split; [reflexivity|].
  split; [|vm_compute; reflexivity].
  eexists. split; [vm_compute; reflexivity|]. split; vm_compute; reflexivity.
Qed.

(** C3, amended. A wake makes one receive into the buffer at the fill
    offset. A negative result runs teardown. A result of 0 changes
    nothing. A positive result that leaves the fill offset below the
    record size stores the bytes behind those already accumulated,
    advances the offset and returns, the channel and the clients being
    left alone. A result that completes the record dispatches the reply
    and resets the offset. *)
Theorem master_input_wake callbacks ret data close_ret s :
  0 ≤ master_pos s < sizeof_reply →
  (ret < 0 →
     master_input callbacks ret data close_ret s = master_close close_ret s) ∧
  (ret = 0 → master_input callbacks ret data close_ret s = Ok s) ∧
  (0 < ret → master_pos s + ret < sizeof_reply →
     ∃ s', master_input callbacks ret data close_ret s = Ok s' ∧
       master_pos s' = master_pos s + ret ∧
       master_buf s' = list_inserts (Z.to_nat (master_pos s))
                         (take (Z.to_nat ret) data) (master_buf s) ∧
       take (Z.to_nat (master_pos s)) (master_buf s')
         = take (Z.to_nat (master_pos s)) (master_buf s) ∧
       io_master s' = io_master s ∧
       master_fd s' = master_fd s ∧
       master_requests s' = master_requests s ∧
       clients s' = clients s ∧
       trace s' = trace s) ∧
  (0 < ret → master_pos s + ret = sizeof_reply →
     master_input callbacks ret data close_ret s
     = (s3 ← request_handle callbacks
               (decode_reply (list_inserts (Z.to_nat (master_pos s))
                                (take (Z.to_nat ret) data) (master_buf s)))
               (set_master_pos sizeof_reply (net_receive_store ret data s));
        Ok (set_master_pos 0 s3))).
Proof.
  intros Hpos. unfold sizeof_reply in *. repeat split.
  - intros Hret. unfold master_input. by rewrite decide_True.
  - intros ->. unfold master_input. rewrite decide_False by lia.
    simpl. rewrite Z.add_0_r, to_uint_small by (unfold uint_max; lia).
    rewrite decide_True by (unfold sizeof_reply; lia).
    destruct s. done.
  - intros Hret Hsum. unfold master_input. rewrite decide_False by lia.
    simpl. rewrite to_uint_small by (unfold uint_max; lia).
    rewrite decide_True by (unfold sizeof_reply; lia).
    eexists. split; [reflexivity|]. simpl.
    repeat split. apply take_list_inserts.
  - intros Hret Hsum. unfold master_input. rewrite decide_False by lia.
    simpl. rewrite to_uint_small by (unfold uint_max; lia).
    rewrite decide_False by (unfold sizeof_reply; lia).
    rewrite Hsum. done.
Qed.

Lemma master_input_wake_witness :
  master_input quiet_callbacks 0 [] 0 one_pending = Ok one_pending
  ∧ ∃ s', master_input quiet_callbacks 3 [Byte.x01; Byte.x00; Byte.x00] 0
            one_pending = Ok s'
          ∧ master_pos s' = 3
          ∧ io_master s' = io_master one_pending.
Proof.
  destruct (master_input_wake quiet_callbacks 0 [] 0 one_pending)
    as (_ & H0 & _); [vm_compute; split; [discriminate | reflexivity]|].
  destruct (master_input_wake quiet_callbacks 3
              [Byte.x01; Byte.x00; Byte.x00] 0 one_pending)
    as (_ & _ & H1 & _); [vm_compute; split; [discriminate | reflexivity]|].
  split; [by apply H0|].
  destruct H1 as (s' & E & P & _ & _ & I & _); [lia | vm_compute; reflexivity|].
  exists s'. auto.
Defined.

(** ** The environment loader *)

Lemma read_env_lines_step input p :
  read_env_lines input p =
  match i_stream_next_line input with
  | (None, input1) => (None, input1, p)
  | (Some line, input1) =>
      if line_nonempty line then read_env_lines input1 (env_put line p)
      else (Some line, input1, p)
  end.
Proof.
  funelim (read_env_lines input p);
    match goal with E : i_stream_next_line _ = _ |- _ => by rewrite E end.
Qed.

Lemma read_env_loop_step input p :
  read_env_loop input p =
  let p0 := sys (SysRead (is_handle input) (i_stream_read input).1) p in
  if decide ((i_stream_read input).1 = -1) then
    (Fatal "EOF while reading environment from master", p0)
  else if decide ((i_stream_read input).1 = -2) then
    (Fatal "Too large environment line from master", p0)
  else
    match read_env_lines (i_stream_read input).2 p0 with
    | (None, input2, p2) => read_env_loop input2 p2
    | (Some _, input2, p2) => (Ok (), p2)
    end.
Proof.
  funelim (read_env_loop input p);
    repeat match goal with E : sigmaI _ _ _ = _ |- _ => clear E end;
    match goal with E : i_stream_read _ = _ |- _ => rewrite E end; simpl.
  - by rewrite decide_True.
  - rewrite decide_False by done. by rewrite decide_True.
  - rewrite decide_False by done. rewrite decide_False by done.
    match goal with E : read_env_lines _ _ = _ |- _ => by rewrite E end.
  - rewrite decide_False by done. rewrite decide_False by done.
    match goal with E : read_env_lines _ _ = _ |- _ => by rewrite E end.
Qed.

Lemma split_line_nolf b : LF ∉ b → split_line b = None.
Proof.
  induction b as [|x b IH]; [done|].
  intros [H1 H2]%not_elem_of_cons. cbn [split_line].
  rewrite decide_False by done. by rewrite IH.
Qed.

Lemma split_line_app l r : LF ∉ l → split_line (l ++ LF :: r) = Some (l, r).
Proof.
  induction l as [|x l IH]; cbn [app split_line].
  - intros _. by rewrite decide_True.
  - intros [H1 H2]%not_elem_of_cons.
    rewrite decide_False by done. by rewrite IH.
Qed.

Lemma set_buffer_id input : set_buffer (is_buffer input) input = input.
Proof. by destruct input. Qed.

Lemma env_line_nolf cap l : env_line cap l → LF ∉ l.
Proof. by intros (H & _). Qed.

Lemma encode_lines_cons l ls :
  encode_lines (l :: ls) = l ++ LF :: encode_lines ls.
Proof. unfold encode_lines. simpl. by rewrite <- app_assoc. Qed.

Lemma encode_lines_app ls1 ls2 :
  encode_lines (ls1 ++ ls2) = encode_lines ls1 ++ encode_lines ls2.
Proof. unfold encode_lines. by rewrite fmap_app, concat_app. Qed.

(** The inner loop merges the complete lines at the head of the buffer. *)
Lemma read_env_lines_drain cap ls : ∀ B input p,
  Forall (env_line cap) ls →
  is_buffer input = encode_lines ls ++ B →
  read_env_lines input p
  = read_env_lines (set_buffer B input) (foldl (λ q l, env_put l q) p ls).
Proof.
  induction ls as [|l ls IH]; intros B input p Hls Hbuf.
  - simpl in *. by rewrite <- Hbuf, set_buffer_id.
  - apply Forall_cons in Hls as [(Hlf & Hne & _) Hls].
    rewrite read_env_lines_step. unfold i_stream_next_line.
    rewrite Hbuf, encode_lines_cons, <- app_assoc. cbn [app].
    rewrite split_line_app by done. rewrite Hne.
    erewrite IH; [|done|reflexivity]. done.
Qed.

Lemma read_env_lines_partial input p :
  LF ∉ is_buffer input → read_env_lines input p = (None, input, p).
Proof.
  intros H. rewrite read_env_lines_step. unfold i_stream_next_line.
  by rewrite split_line_nolf.
Qed.

Lemma stop_line_rejected cap stop : stop_line cap stop → line_nonempty stop = false.
Proof.
  intros (_ & [->|[r ->]] & _); [done|].
  cbn [line_nonempty]. apply bool_decide_eq_false_2. intros H. by apply H.
Qed.

Lemma read_env_lines_stop cap input p stop B :
  stop_line cap stop →
  is_buffer input = stop ++ LF :: B →
  read_env_lines input p = (Some stop, set_buffer B input, p).
Proof.
  intros Hstop H. rewrite read_env_lines_step. unfold i_stream_next_line.
  rewrite H, split_line_app by apply Hstop.
  by rewrite (stop_line_rejected cap).
Qed.

Lemma environ_put_lines ls : ∀ p,
  environ (foldl (λ q l, env_put l q) p ls) = merge_lines (environ p) ls.
Proof.
  unfold merge_lines. induction ls as [|l ls IH]; intros p; simpl; [done|].
  by rewrite IH.
Qed.

(** What i_stream_read does in each of its three cases. *)
Lemma i_stream_read_full input :
  is_max_buffer_size input ≤ Z.of_nat (length (is_buffer input)) →
  i_stream_read input = (-2, input).
Proof. intros H. unfold i_stream_read. by rewrite decide_True. Qed.

Lemma i_stream_read_eof input :
  Z.of_nat (length (is_buffer input)) < is_max_buffer_size input →
  is_input input = [] →
  i_stream_read input = (-1, input).
Proof.
  intros H E. unfold i_stream_read. rewrite decide_False by lia. by rewrite E.
Qed.

Lemma i_stream_read_data input c cs :
  Z.of_nat (length (is_buffer input)) < is_max_buffer_size input →
  is_input input = c :: cs →
  c ≠ [] →
  Forall (λ c, c ≠ []) cs →
  ∃ got cs',
    i_stream_read input
    = (Z.of_nat (length got),
       IStream (is_handle input) cs' (is_buffer input ++ got)
               (is_max_buffer_size input)) ∧
    got ≠ [] ∧
    got ++ concat cs' = concat (c :: cs) ∧
    Forall (λ c, c ≠ []) cs' ∧
    Z.of_nat (length (is_buffer input ++ got)) ≤ is_max_buffer_size input.
Proof.
  intros Hroom E Hc Hcs. unfold i_stream_read.
  rewrite decide_False by lia. rewrite E.
  destruct c as [|x c]; [done|].
  set (room := Z.to_nat (is_max_buffer_size input
                         - Z.of_nat (length (is_buffer input)))).
  assert (Hr : (0 < room)%nat) by (unfold room; lia).
  exists (take room (x :: c)),
         (match drop room (x :: c) with
          | [] => cs
          | _ => drop room (x :: c) :: cs
          end).
  split; [done|]. split.
  { destruct room; [lia|]. done. }
  split.
  { destruct (drop room (x :: c)) eqn:Ed.
    - rewrite <- (take_drop room (x :: c)) at 2. rewrite Ed, app_nil_r. done.
    - rewrite <- Ed. simpl concat. rewrite app_assoc, take_drop. done. }
  split.
  { destruct (drop room (x :: c)) eqn:Ed; [done|]. by constructor. }
  rewrite length_app, length_take. unfold room. lia.
Qed.

(** Where a prefix of the stream ends: inside (or at the end of) one of
    the lines, or behind all of them. *)
Lemma buffer_split cap ls : ∀ B X tail,
  Forall (env_line cap) ls →
  B ++ X = encode_lines ls ++ tail →
  (∃ ls1 l ls2 b Y,
     ls = ls1 ++ l :: ls2 ∧ B = encode_lines ls1 ++ b ∧ l = b ++ Y ∧
     X = Y ++ LF :: encode_lines ls2 ++ tail)
  ∨ (∃ B', B = encode_lines ls ++ B' ∧ B' ++ X = tail).
Proof.
  induction ls as [|l ls IH]; intros B X tail Hls E.
  - right. exists B. done.
  - apply Forall_cons in Hls as [Hl Hls].
    rewrite encode_lines_cons, <- app_assoc in E. cbn [app] in E.
    apply app_eq_inv in E as [(k & -> & E)|(k & -> & ->)].
    + destruct k as [|x k].
      * left. exists [], l, ls, l, []. simpl in *.
        rewrite app_nil_r. done.
      * injection E as <- E. symmetry in E.
        destruct (IH _ _ _ Hls E)
          as [(ls1 & l' & ls2 & b & Y & -> & -> & -> & ->)|(B' & -> & <-)].
        -- left. exists (l :: ls1), (b ++ Y), ls2, b, Y.
           rewrite encode_lines_cons, <- !app_assoc. done.
        -- right. exists B'. rewrite encode_lines_cons, <- !app_assoc. done.
    + left. exists [], (B ++ k), ls, B, k. done.
Qed.

Lemma elem_of_encode_lines l ls : LF ∈ encode_lines (l :: ls).
Proof.
  rewrite encode_lines_cons. apply elem_of_app. right. by left.
Qed.

(** A buffer without newline is a prefix of the line that comes next. *)
Lemma partial_line cap b X l ls tail :
  LF ∉ b → env_line cap l →
  b ++ X = encode_lines (l :: ls) ++ tail →
  Z.of_nat (length b) < cap.
Proof.
  intros Hb (Hl & _ & Hlen) E.
  rewrite encode_lines_cons, <- app_assoc in E. cbn [app] in E.
  apply app_eq_inv in E as [(k & -> & E)|(k & -> & _)].
  - destruct k as [|x k]; [by rewrite app_nil_r in *|].
    injection E as <- _. exfalso. apply Hb.
    apply elem_of_app. right. by left.
  - rewrite length_app in Hlen. lia.
Qed.

Lemma nolf_prefix (b X stop rest : list Byte.byte) :
  LF ∉ b → b ++ X = stop ++ LF :: rest → ∃ k, stop = b ++ k.
Proof.
  intros Hb E. apply app_eq_inv in E as [(k & -> & E)|(k & -> & _)]; [|eauto].
  destruct k as [|x k]; [exists []; by rewrite !app_nil_r|].
  injection E as <- _. exfalso. apply Hb. apply elem_of_app. right. by left.
Qed.

Lemma full_buffer_end cap b X ls tail res :
  0 < cap →
  LF ∉ b →
  Forall (env_line cap) ls →
  loader_end cap tail res →
  b ++ X = encode_lines ls ++ tail →
  cap ≤ Z.of_nat (length b) →
  ls = [] ∧ res = Fatal "Too large environment line from master".
Proof.
  intros Hcap Hb Hls Hend E Hfull.
  destruct ls as [|l ls].
  - split; [done|]. simpl in E.
    destruct Hend as [stop rest (_ & _ & Hlen)|part Hp Hlen|big rest]; [| |done].
    + destruct (nolf_prefix _ _ _ _ Hb E) as [k ->].
      rewrite length_app in Hlen. lia.
    + rewrite <- E, length_app in Hlen. lia.
  - apply Forall_cons in Hls as [Hl _].
    pose proof (partial_line _ _ _ _ _ _ Hb Hl E). lia.
Qed.

Lemma exhausted_end cap b ls tail res :
  LF ∉ b →
  loader_end cap tail res →
  b = encode_lines ls ++ tail →
  Z.of_nat (length b) < cap →
  ls = [] ∧ res = Fatal "EOF while reading environment from master".
Proof.
  intros Hb Hend E Hlen.
  destruct ls as [|l ls].
  - split; [done|]. simpl in E. subst b.
    destruct Hend as [stop rest _|part Hp Hl|big rest Hbig Hl]; [|done|].
    + exfalso. apply Hb. apply elem_of_app. right. by left.
    + rewrite length_app in Hlen. lia.
  - exfalso. apply Hb. rewrite E. apply elem_of_app. left.
    apply elem_of_encode_lines.
Qed.

Lemma tail_head cap tail res B' X :
  loader_end cap tail res →
  B' ++ X = tail →
  Z.of_nat (length B') ≤ cap →
  LF ∉ B' ∨ (∃ stop B'', stop_line cap stop ∧ B' = stop ++ LF :: B'' ∧ res = Ok ()).
Proof.
  intros Hend E Hlen.
  destruct Hend as [stop rest Hstop|part Hp Hl|big rest Hbig Hl].
  - apply app_eq_inv in E as [(k & -> & E)|(k & -> & _)].
    + destruct k as [|x k].
      * left. rewrite app_nil_r. apply Hstop.
      * injection E as <- _. right. eauto.
    + left. destruct Hstop as (Hnolf & _). by apply not_elem_of_app in Hnolf as [? _].
  - left. subst part. by apply not_elem_of_app in Hp as [? _].
  - left. apply app_eq_inv in E as [(k & -> & _)|(k & -> & _)].
    + rewrite length_app in Hlen.
      assert (k = []) as -> by (apply nil_length_inv; lia).
      by rewrite app_nil_r.
    + by apply not_elem_of_app in Hbig as [? _].
Qed.

Lemma merge_lines_app env ls1 ls2 :
  merge_lines env (ls1 ++ ls2) = merge_lines (merge_lines env ls1) ls2.
Proof. unfold merge_lines. apply foldl_app. Qed.

(** The loop of master_read_env, for every way the stream is cut into
    reads: the complete assignment lines are merged in order, and the loop
    ends as the rest of the stream says. *)
Lemma read_env_loop_spec cap : ∀ n input p ls tail res,
  (pending_input input < n)%nat →
  0 < cap →
  is_max_buffer_size input = cap →
  Forall (λ c, c ≠ []) (is_input input) →
  LF ∉ is_buffer input →
  Z.of_nat (length (is_buffer input)) ≤ cap →
  Forall (env_line cap) ls →
  loader_end cap tail res →
  is_buffer input ++ concat (is_input input) = encode_lines ls ++ tail →
  (read_env_loop input p).1 = res ∧
  environ (read_env_loop input p).2 = merge_lines (environ p) ls.
Proof.
  induction n as [|n IH]; intros input p ls tail res Hn Hcap Hmax Hcs Hb Hlen
    Hls Hend E; [lia|].
  rewrite read_env_loop_step.
  destruct (decide (cap ≤ Z.of_nat (length (is_buffer input)))) as [Hfull|Hroom].
  { rewrite i_stream_read_full by lia. simpl.
    destruct (full_buffer_end _ _ _ _ _ _ Hcap Hb Hls Hend E Hfull) as [-> ->].
    done. }
  destruct (is_input input) as [|c cs] eqn:Ein.
  { rewrite i_stream_read_eof by (done || lia). simpl.
    simpl in E. rewrite app_nil_r in E.
    destruct (exhausted_end cap _ _ _ _ Hb Hend E) as [-> ->]; [lia|].
    done. }
  apply Forall_cons in Hcs as [Hc Hcs].
  destruct (i_stream_read_data input c cs) as
    (got & cs' & Hread & Hgot & Hcat & Hcs' & Hlen'); [lia|done..|].
  rewrite Hread. cbn [fst snd].
  rewrite decide_False by lia. rewrite decide_False by lia.
  set (p0 := sys (SysRead (is_handle input) (Z.of_nat (length got))) p).
  set (input1 := IStream (is_handle input) cs' (is_buffer input ++ got)
                   (is_max_buffer_size input)).
  assert (Hpend : (length (concat cs') < length (concat (c :: cs)))%nat).
  { rewrite <- Hcat, length_app. destruct got; [done|]. simpl. lia. }
  assert (E1 : (is_buffer input ++ got) ++ concat cs' = encode_lines ls ++ tail).
  { rewrite <- app_assoc, Hcat. done. }
  unfold pending_input in Hn. rewrite Ein in Hn.
  destruct (buffer_split cap ls _ _ _ Hls E1)
    as [(ls1 & l & ls2 & b & Y & -> & HB & -> & HX)|(B' & HB & HX)].
  - apply Forall_app in Hls as [Hls1 Hls2].
    assert (Hnolf : LF ∉ b).
    { apply Forall_cons in Hls2 as [(Hl & _) _].
      by apply not_elem_of_app in Hl as [? _]. }
    rewrite (read_env_lines_drain cap ls1 b input1 p0) by done.
    rewrite read_env_lines_partial by done.
    destruct (IH (set_buffer b input1) (foldl (λ q l, env_put l q) p0 ls1)
                ((b ++ Y) :: ls2) tail res) as [IH1 IH2]; try done.
    + unfold pending_input. simpl. lia.
    + simpl. rewrite Hmax in Hlen'. rewrite HB, length_app in Hlen'. lia.
    + simpl. rewrite HX, encode_lines_cons, <- !app_assoc. done.
    + split; [done|]. rewrite IH2, environ_put_lines, merge_lines_app. done.
  - rewrite (read_env_lines_drain cap ls B' input1 p0) by done.
    destruct (tail_head cap tail res B' (concat cs') Hend HX)
      as [Hnolf|(stop & B'' & Hstop & -> & ->)].
    { rewrite Hmax in Hlen'. rewrite HB, length_app in Hlen'. lia. }
    + rewrite read_env_lines_partial by done.
      destruct (IH (set_buffer B' input1) (foldl (λ q l, env_put l q) p0 ls)
                  [] tail res) as [IH1 IH2]; try done.
      * unfold pending_input. simpl. lia.
      * simpl. rewrite Hmax in Hlen'. rewrite HB, length_app in Hlen'. lia.
      * split; [done|]. rewrite IH2, environ_put_lines. done.
    + erewrite (read_env_lines_stop cap) by (done || reflexivity).
      split; [done|]. simpl. rewrite environ_put_lines. done.
Qed.

Lemma master_read_env_stops handle ls cs p tail res :
  Forall (env_line 8192) ls →
  Forall (λ c, c ≠ []) cs →
  loader_end 8192 tail res →
  concat cs = encode_lines ls ++ tail →
  (master_read_env handle cs p).1 = res ∧
  environ (master_read_env handle cs p).2 = merge_lines [] ls.
Proof.
  intros Hls Hcs Hend E. unfold master_read_env.
  change (@nil (list Byte.byte)) with (environ (env_clean p)).
  apply (read_env_loop_spec 8192 (S (length (concat cs))) _ _ ls tail res);
    try done.
  - unfold pending_input. simpl. lia.
  - apply not_elem_of_nil.
Qed.

Lemma stream_end_loader_end tail res :
  stream_end 8192 tail res → loader_end 8192 tail res.
Proof.
  intros [rest|part Hp Hl|big rest Hb Hl].
  - apply (LoaderStopped 8192 [] rest). split; [apply not_elem_of_nil|].
    split; [by left|]. simpl. lia.
  - by constructor.
  - by constructor.
Qed.

Lemma master_read_env_end handle ls cs p tail res :
  Forall (env_line 8192) ls →
  Forall (λ c, c ≠ []) cs →
  stream_end 8192 tail res →
  concat cs = encode_lines ls ++ tail →
  (master_read_env handle cs p).1 = res ∧
  environ (master_read_env handle cs p).2 = merge_lines [] ls.
Proof.
  intros Hls Hcs Hend E.
  by apply (master_read_env_stops handle ls cs p tail res);
    [| |apply stream_end_loader_end|].
Qed.

Lemma assignment_env_line cap l : assignment_line cap l → env_line cap l.
Proof.
  intros (Hlf & (b & r & -> & Hb) & Hlen). split; [done|]. split; [|done].
  cbn [line_nonempty]. by apply bool_decide_eq_true_2.
Qed.

Ltac by_decide := apply (bool_decide_unpack _); vm_compute; exact I.

Lemma example_env_lines_ok : Forall (env_line 8192) example_env_lines.
Proof.
  unfold example_env_lines.
  repeat apply Forall_cons_2; try apply Forall_nil_2;
    (split; [by_decide | split; [reflexivity | vm_compute; reflexivity]]).
Qed.

Lemma example_assignment_lines : Forall (assignment_line 8192) example_env_lines.
Proof.
  unfold example_env_lines.
  repeat apply Forall_cons_2; try apply Forall_nil_2;
    (split; [by_decide | split; [by eexists _, _ | vm_compute; reflexivity]]).
Qed.

(** C7, as stated, fails: a line that is not empty but begins with a NUL
    byte is not put into the environment; the loader takes it for the end
    of the bootstrap and returns, and the assignment after it is never
    read. Read as the claim words it, the same lines give an environment
    with that assignment. *)
Lemma master_read_env_stops_at_nul_line :
  master_read_env 4
    [encode_lines [Byte.x00 :: bytes "X=1"; bytes "HOME=/home"; []]] example_proc
  = (Ok (), {| environ := []; syscalls := [SysRead 4 17] |})
  ∧ environ (master_read_env_as_specified
               [Byte.x00 :: bytes "X=1"; bytes "HOME=/home"; []] example_proc)
    = [[]; bytes "HOME=/home"].
Proof. split; vm_compute; reflexivity. Qed.

(** C7, amended. Whatever way the stream arrives in pieces: the loader
    puts the lines whose first byte is present and not NUL, in order, into
    the (emptied) environment until the first line that is empty or
    begins with a NUL byte, and returns there; when the stream ends
    before such a line the loader dies with the EOF message; when a line
    reaches 8192 bytes without its newline the loader dies with the
    too-large message. *)
Theorem master_read_env_outcomes handle ls cs p :
  Forall (assignment_line 8192) ls →
  Forall (λ c, c ≠ []) cs →
  (∀ stop rest, stop_line 8192 stop →
     concat cs = encode_lines ls ++ stop ++ LF :: rest →
     ∃ p', master_read_env handle cs p = (Ok (), p') ∧
           environ p' = merge_lines [] ls) ∧
  (∀ part, LF ∉ part → Z.of_nat (length part) < 8192 →
     concat cs = encode_lines ls ++ part →
     (master_read_env handle cs p).1
     = Fatal "EOF while reading environment from master") ∧
  (∀ big rest, LF ∉ big → Z.of_nat (length big) = 8192 →
     concat cs = encode_lines ls ++ big ++ rest →
     (master_read_env handle cs p).1
     = Fatal "Too large environment line from master").
Proof.
  intros Hls Hcs.
  assert (Hls' : Forall (env_line 8192) ls).
  { eapply Forall_impl; [exact Hls|]. apply assignment_env_line. }
  repeat split.
  - intros stop rest Hstop E.
    destruct (master_read_env_stops handle ls cs p (stop ++ LF :: rest) (Ok ()))
      as [H1 H2]; [done|done|by constructor|done|].
    destruct (master_read_env handle cs p) as [r p']. simpl in *. subst r.
    eauto.
  - intros part Hp Hl E.
    by destruct (master_read_env_stops handle ls cs p part
              (Fatal "EOF while reading environment from master"))
      as [H1 _]; [done|done|by constructor|done|].
  - intros big rest Hb Hl E.
    by destruct (master_read_env_stops handle ls cs p (big ++ rest)
              (Fatal "Too large environment line from master"))
      as [H1 _]; [done|done|by constructor|done|].
Qed.

(** The example of the specification, the stream arriving in one piece;
    the same lines followed by a line that begins with NUL and by a late
    assignment; and the same lines without a line to stop at. *)
Lemma master_read_env_outcomes_witness :
  (∃ p', master_read_env 4 [example_env_stream] example_proc = (Ok (), p') ∧
         environ p' = [bytes "MAIL=/var/mail"; bytes "HOME=/home"]) ∧
  (∃ p', master_read_env 4
           [encode_lines example_env_lines
            ++ (Byte.x00 :: bytes "X=1") ++ LF :: bytes "LATE=1"]
           example_proc = (Ok (), p') ∧
         environ p' = [bytes "MAIL=/var/mail"; bytes "HOME=/home"]) ∧
  (master_read_env 4 [encode_lines example_env_lines] example_proc).1
  = Fatal "EOF while reading environment from master".
Proof.
  split; [|split].
  - destruct (master_read_env_outcomes 4 example_env_lines
                [example_env_stream] example_proc) as (H & _ & _).
    + exact example_assignment_lines.
    + repeat constructor. vm_compute. discriminate.
    + destruct (H [] []) as (p' & H1 & H2).
      * split; [apply not_elem_of_nil|]. split; [by left|]. simpl. lia.
      * vm_compute. reflexivity.
      * exists p'. split; [exact H1|]. rewrite H2. vm_compute. reflexivity.
  - destruct (master_read_env_outcomes 4 example_env_lines
                [encode_lines example_env_lines
                 ++ (Byte.x00 :: bytes "X=1") ++ LF :: bytes "LATE=1"]
                example_proc) as (H & _ & _).
    + exact example_assignment_lines.
    + repeat constructor. vm_compute. discriminate.
    + destruct (H (Byte.x00 :: bytes "X=1") (bytes "LATE=1")) as (p' & H1 & H2).
      * split; [by_decide|]. split; [right; by eexists|]. vm_compute. reflexivity.
      * reflexivity.
      * exists p'. split; [exact H1|]. rewrite H2. vm_compute. reflexivity.
  - destruct (master_read_env_outcomes 4 example_env_lines
                [encode_lines example_env_lines] example_proc) as (_ & H & _).
    + exact example_assignment_lines.
    + repeat constructor. vm_compute. discriminate.
    + apply (H []).
      * apply not_elem_of_nil.
      * simpl. lia.
      * vm_compute. reflexivity.
Defined.

(** The same example, the stream arriving in three pieces cut inside a
    line, evaluated. *)
Example master_read_env_in_pieces :
  master_read_env 4
    [bytes "MAIL=/var/ma"; bytes "il" ++ [LF] ++ bytes "HOME=/home" ++ [LF]; [LF]]
    example_proc
  = (Ok (),
     {| environ := [bytes "MAIL=/var/mail"; bytes "HOME=/home"];
        syscalls := [SysRead 4 12; SysRead 4 14; SysRead 4 1] |}).
Proof. vm_compute. reflexivity. Qed.

(** ** The environment after the bootstrap *)









(** ** Connection bootstrap *)

(** The system calls a piece of straight-line code adds. *)
Ltac added_syscalls :=
  eexists; split;
  [ simpl; rewrite <- ?app_assoc; simpl; reflexivity
  | split; [ repeat apply Forall_cons_2; try apply Forall_nil_2; simpl; tauto
           | reflexivity ] ].

Lemma count_connects_app tr1 tr2 :
  count_connects (tr1 ++ tr2) = (count_connects tr1 + count_connects tr2)%nat.
Proof. unfold count_connects. by rewrite List.filter_app, length_app. Qed.

Lemma master_exec_syscalls pf o handle p :
  ∃ evs, syscalls (master_exec pf o handle p).2 = syscalls p ++ evs ∧
         Forall (λ e, ¬ is_channel_io e) evs ∧ count_connects evs = 0%nat.
Proof.
  unfold master_exec.
  repeat case_decide; try destruct (execv_replaces o); added_syscalls.
Qed.

Lemma create_master_socket_syscalls pf o i q :
  ∃ evs, syscalls (create_master_socket pf o i q).2 = syscalls q ++ evs ∧
         Forall (λ e, ¬ is_channel_io e) evs ∧ count_connects evs = 0%nat.
Proof.
  unfold create_master_socket. repeat case_decide; try added_syscalls.
  unfold run_bind.
  destruct (master_exec_syscalls pf (spawn o i) (net_listen_unix o i).1
              (sys (SysListen (master_path pf)) q)) as (evs & E & HF & Hc).
  destruct (master_exec pf (spawn o i) (net_listen_unix o i).1
              (sys (SysListen (master_path pf)) q)) as [[]?]; simpl in *;
    (exists (SysListen (master_path pf) :: evs);
     split; [by rewrite E, <- app_assoc|];
     split; [apply Forall_cons_2; [simpl; tauto|done] | done]).
Qed.

Lemma connect_attempt_cases pf o i p :
  connect_attempt pf o i p =
  let p1 := sys (SysConnect (master_path pf)) p in
  if decide ((net_connect_unix o i).1 ≠ -1) then
    (Ok (net_connect_unix o i).1, p1)
  else if decide ((net_connect_unix o i).2 = ECONNREFUSED) then
    create_master_socket pf o i
      (if decide (unlink o i < 0)
       then sys (LogError "unlink failed") (sys (SysUnlink (master_path pf)) p1)
       else sys (SysUnlink (master_path pf)) p1)
  else if decide ((net_connect_unix o i).2 ≠ ENOENT) then
    (Fatal "Can't connect to master UNIX socket", p1)
  else create_master_socket pf o i p1.
Proof.
  unfold connect_attempt, create_master_socket, run_bind.
  destruct (net_connect_unix o i) as [h e].
  destruct (net_listen_unix o i) as [lh le]. simpl.
  repeat case_decide; try done.
Qed.

Lemma connect_attempt_syscalls pf o i p :
  ∃ evs, syscalls (connect_attempt pf o i p).2 = syscalls p ++ evs ∧
         Forall (λ e, ¬ is_channel_io e) evs ∧ count_connects evs = 1%nat.
Proof.
  rewrite connect_attempt_cases. cbv zeta.
  repeat case_decide; try added_syscalls;
    match goal with |- context [create_master_socket pf o i ?q] =>
      destruct (create_master_socket_syscalls pf o i q) as (evs & E & HF & Hc);
      rewrite E
    end; simpl.
  - exists ([SysConnect (master_path pf); SysUnlink (master_path pf);
             LogError "unlink failed"] ++ evs).
    split; [by rewrite <- !app_assoc|].
    split; [apply Forall_app; split;
              [repeat apply Forall_cons_2; try apply Forall_nil_2; simpl; tauto|done]|].
    rewrite count_connects_app, Hc. done.
  - exists ([SysConnect (master_path pf); SysUnlink (master_path pf)] ++ evs).
    split; [by rewrite <- !app_assoc|].
    split; [apply Forall_app; split;
              [repeat apply Forall_cons_2; try apply Forall_nil_2; simpl; tauto|done]|].
    rewrite count_connects_app, Hc. done.
  - exists ([SysConnect (master_path pf)] ++ evs).
    split; [by rewrite <- !app_assoc|].
    split; [apply Forall_app; split;
              [repeat apply Forall_cons_2; try apply Forall_nil_2; simpl; tauto|done]|].
    rewrite count_connects_app, Hc. done.
Qed.

Lemma connect_loop_step pf o n i q :
  connect_loop pf o (S n) i q =
  match connect_attempt pf o i q with
  | (Ok handle, q1) =>
      if decide (handle = -1) then connect_loop pf o n (S i) q1
      else (Ok handle, q1)
  | (Fatal msg, q1) => (Fatal msg, q1)
  | (Panic msg, q1) => (Panic msg, q1)
  | (Exec image, q1) => (Exec image, q1)
  | (Fault, q1) => (Fault, q1)
  end.
Proof.
  cbn [connect_loop]. unfold run_bind.
  destruct (connect_attempt pf o i q) as [[h| | | |] q1]; try done.
  by case_decide.
Qed.

Lemma connect_loop_syscalls pf o n : ∀ i p,
  ∃ evs, syscalls (connect_loop pf o n i p).2 = syscalls p ++ evs ∧
         Forall (λ e, ¬ is_channel_io e) evs ∧ (count_connects evs ≤ n)%nat.
Proof.
  induction n as [|n IH]; intros i p.
  - exists []. simpl. rewrite app_nil_r. repeat split; [constructor|done].
  - rewrite connect_loop_step.
    destruct (connect_attempt_syscalls pf o i p) as (evs & E & HF & Hc).
    destruct (connect_attempt pf o i p) as [[h| | | |] q1]; simpl in *;
      try (exists evs; repeat split; [done|done|lia]).
    case_decide; [|exists evs; repeat split; [done|done|lia]].
    destruct (IH (S i) q1) as (evs' & E' & HF' & Hc').
    exists (evs ++ evs'). rewrite E', E, <- app_assoc.
    split; [done|]. split; [by apply Forall_app|].
    rewrite count_connects_app. lia.
Qed.

Lemma read_env_lines_syscalls input p :
  syscalls (read_env_lines input p).2 = syscalls p.
Proof.
  funelim (read_env_lines input p); [|done].
  destruct (line_nonempty line); [|done].
  match goal with IH : syscalls _ = _ |- _ => rewrite IH; reflexivity end.
Qed.

Lemma count_connects_read tr handle ret :
  count_connects (tr ++ [SysRead handle ret]) = count_connects tr.
Proof. rewrite count_connects_app. unfold count_connects. simpl. lia. Qed.

Lemma read_env_loop_connects input p :
  count_connects (syscalls (read_env_loop input p).2)
  = count_connects (syscalls p).
Proof.
  funelim (read_env_loop input p); simpl;
    try apply count_connects_read;
    repeat match goal with E : sigmaI _ _ _ = _ |- _ => clear E end;
    try (match goal with IH : count_connects _ = _ |- _ => rewrite IH end);
    match goal with E : read_env_lines _ _ = _ |- _ =>
      apply (f_equal (λ r, syscalls r.2)) in E;
      rewrite read_env_lines_syscalls in E; simpl in E; rewrite <- E
    end; apply count_connects_read.
Qed.

Lemma master_connect_connected pf o group_name p handle p1 :
  connect_loop pf o 5 0 p = (Ok handle, p1) →
  master_connect pf o group_name p =
  if decide (handle = -1) then (Fatal "Couldn't use/create UNIX socket", p1)
  else if first_is_nul group_name then (Fatal "No login group name set", p1)
  else if decide (strlen group_name >= 256) then
    (Fatal "Login group name too large", p1)
  else
    let frame := uchar (strlen group_name) :: c_str group_name in
    let p2 := sys (SysWrite handle (c_str frame)) p1 in
    if decide (write_full o < 0) then (Fatal "write_full(master_fd) failed", p2)
    else and_return (master_read_env handle (master_data o) p2) handle.
Proof.
  intros E. unfold master_connect, run_bind at 1. rewrite E.
  case_decide; [done|].
  destruct (first_is_nul group_name); [done|].
  case_decide; [done|]. cbv zeta.
  case_decide; [done|].
  unfold run_bind.
  by destruct (master_read_env handle (master_data o) _) as [[]?].
Qed.

Lemma master_connect_not_connected pf o group_name p r p1 :
  connect_loop pf o 5 0 p = (r, p1) →
  (∀ handle, r ≠ Ok handle) →
  master_connect pf o group_name p = (r, p1).
Proof.
  intros E Hr. unfold master_connect, run_bind at 1. rewrite E.
  destruct r; try done. by destruct (Hr a).
Qed.

(** *** The group name *)

Lemma first_is_nul_strlen g : first_is_nul g = true ↔ strlen g = 0.
Proof.
  unfold strlen. destruct g as [|b g]; cbn [first_is_nul c_str]; [done|].
  destruct (decide (b = Byte.x00)) as [->|Hb].
  - by rewrite bool_decide_eq_true_2.
  - rewrite bool_decide_eq_false_2 by done. simpl. split; [done|lia].
Qed.

Lemma c_str_idemp g : c_str (c_str g) = c_str g.
Proof.
  induction g as [|b g IH]; cbn [c_str]; [done|].
  destruct (decide (b = Byte.x00)) as [->|Hb]; [done|].
  cbn [c_str]. rewrite decide_False by done. by rewrite IH.
Qed.

Lemma c_str_frame b g : b ≠ Byte.x00 → c_str (b :: c_str g) = b :: c_str g.
Proof.
  intros Hb. cbn [c_str]. rewrite decide_False by done. by rewrite c_str_idemp.
Qed.

Lemma uchar_value z : 0 ≤ z ≤ 255 → Z.of_N (Byte.to_N (uchar z)) = z.
Proof.
  intros Hz. unfold uchar. rewrite Z.mod_small by lia.
  destruct (Byte.of_N (Z.to_N z)) as [b|] eqn:E; simpl.
  - apply Byte.to_of_N in E. rewrite E. lia.
  - apply Byte.of_N_None_iff in E. lia.
Qed.

Lemma uchar_nonzero z : 1 ≤ z ≤ 255 → uchar z ≠ Byte.x00.
Proof.
  intros Hz E. pose proof (uchar_value z ltac:(lia)) as H.
  rewrite E in H. simpl in H. lia.
Qed.

(** C8, as stated, fails: with an empty group name the process connects,
    creates the socket and starts the supervisor before the name is
    looked at. *)
Lemma group_name_checked_after_io :
  master_connect example_platform os_missing_socket [] fresh_proc
  = (Fatal "No login group name set",
     {| environ := [];
        syscalls := [SysConnect "/var/run/dovecot/master";
                     SysListen "/var/run/dovecot/master";
                     SysFork; SysClose 9;
                     SysConnect "/var/run/dovecot/master"] |}).
Proof. vm_compute. reflexivity. Qed.

(** C8, amended. The group name is checked once the channel is
    connected and before anything is written to or read from it: with a
    name of length 0 or of 256 and more master_connect never returns and
    does no write or read, the fatal error coming right after the
    successful connect; a name of length 1 to 255 is written as one frame,
    the length byte followed by the bytes of the name. *)
Theorem group_name_validation pf o group_name p :
  (strlen group_name = 0 ∨ 256 ≤ strlen group_name →
     (∀ h, (master_connect pf o group_name p).1 ≠ Ok h) ∧
     ∃ evs, syscalls (master_connect pf o group_name p).2 = syscalls p ++ evs ∧
            Forall (λ e, ¬ is_channel_io e) evs) ∧
  (∀ handle p1,
     connect_loop pf o 5 0 p = (Ok handle, p1) →
     handle ≠ -1 →
     (strlen group_name = 0 →
        master_connect pf o group_name p
        = (Fatal "No login group name set", p1)) ∧
     (256 ≤ strlen group_name →
        master_connect pf o group_name p
        = (Fatal "Login group name too large", p1)) ∧
     (1 ≤ strlen group_name ≤ 255 →
        ∃ len_byte,
          Z.of_N (Byte.to_N len_byte) = strlen group_name ∧
          let p2 := sys (SysWrite handle (len_byte :: c_str group_name)) p1 in
          master_connect pf o group_name p
          = if decide (write_full o < 0)
            then (Fatal "write_full(master_fd) failed", p2)
            else and_return (master_read_env handle (master_data o) p2) handle)).
Proof.
  assert (Hcases : ∀ handle p1,
     connect_loop pf o 5 0 p = (Ok handle, p1) →
     handle ≠ -1 →
     (strlen group_name = 0 →
        master_connect pf o group_name p
        = (Fatal "No login group name set", p1)) ∧
     (256 ≤ strlen group_name →
        master_connect pf o group_name p
        = (Fatal "Login group name too large", p1)) ∧
     (1 ≤ strlen group_name ≤ 255 →
        ∃ len_byte,
          Z.of_N (Byte.to_N len_byte) = strlen group_name ∧
          let p2 := sys (SysWrite handle (len_byte :: c_str group_name)) p1 in
          master_connect pf o group_name p
          = if decide (write_full o < 0)
            then (Fatal "write_full(master_fd) failed", p2)
            else and_return (master_read_env handle (master_data o) p2) handle)).
  { intros handle p1 E Hh.
    rewrite (master_connect_connected _ _ _ _ _ _ E).
    rewrite decide_False by done.
    destruct (first_is_nul group_name) eqn:Enul.
    - apply first_is_nul_strlen in Enul. repeat split; (done || lia).
    - assert (strlen group_name ≠ 0).
      { intros H0. apply first_is_nul_strlen in H0. congruence. }
      split; [done|]. split.
      + intros Hbig. by rewrite decide_True by lia.
      + intros Hlen. rewrite decide_False by lia.
        exists (uchar (strlen group_name)).
        split; [apply uchar_value; lia|]. cbv zeta.
        by rewrite c_str_frame by (apply uchar_nonzero; lia). }
  split; [|exact Hcases].
  intros Hbad.
  destruct (connect_loop_syscalls pf o 5 0%nat p) as (evs & Es & HF & _).
  destruct (connect_loop pf o 5 0 p) as [r p1] eqn:E.
  simpl in Es.
  destruct r as [h| | | |].
  - destruct (decide (h = -1)) as [->|Hh].
    + rewrite (master_connect_connected _ _ _ _ _ _ E).
      rewrite decide_True by done. simpl. split; [done|eauto].
    + destruct (Hcases h p1 eq_refl Hh) as (H0 & H256 & _).
      destruct Hbad as [Hbad|Hbad]; [rewrite (H0 Hbad)|rewrite (H256 Hbad)];
        simpl; (split; [done|eauto]).
  - rewrite (master_connect_not_connected _ _ _ _ _ _ E) by done.
    simpl. split; [done|eauto].
  - rewrite (master_connect_not_connected _ _ _ _ _ _ E) by done.
    simpl. split; [done|eauto].
  - rewrite (master_connect_not_connected _ _ _ _ _ _ E) by done.
    simpl. split; [done|eauto].
  - rewrite (master_connect_not_connected _ _ _ _ _ _ E) by done.
    simpl. split; [done|eauto].
Qed.

Lemma group_name_validation_witness :
  master_connect example_platform os_master_running (bytes "imap") fresh_proc
  = and_return
      (master_read_env 4 [example_env_stream]
         (sys (SysWrite 4 (Byte.x04 :: bytes "imap"))
              (sys (SysConnect "/var/run/dovecot/master") fresh_proc))) 4
  ∧ master_connect example_platform os_master_running [] fresh_proc
    = (Fatal "No login group name set",
       sys (SysConnect "/var/run/dovecot/master") fresh_proc).
Proof.
  destruct (group_name_validation example_platform os_master_running
              (bytes "imap") fresh_proc) as [_ H].
  destruct (H 4 (sys (SysConnect "/var/run/dovecot/master") fresh_proc))
    as (_ & _ & H1); [vm_compute; reflexivity | lia |].
  destruct H1 as (b & Hb & H1); [vm_compute; split; discriminate|].
  destruct (group_name_validation example_platform os_master_running
              [] fresh_proc) as [_ H'].
  destruct (H' 4 (sys (SysConnect "/var/run/dovecot/master") fresh_proc))
    as (H0 & _ & _); [vm_compute; reflexivity | lia |].
  split; [|apply H0; reflexivity].
  assert (b = Byte.x04) as ->.
  { change (strlen (bytes "imap")) with 4 in Hb.
    assert (Byte.of_N (Byte.to_N b) = Byte.of_N 4) as Hx by (f_equal; lia).
    rewrite Byte.of_to_N in Hx. by injection Hx. }
  exact H1.
Defined.

(** *** The connect loop *)

Lemma connect_loop_exhausted pf o n : ∀ i q,
  (∀ j q', (i ≤ j < i + n)%nat → (connect_attempt pf o j q').1 = Ok (-1)) →
  (connect_loop pf o n i q).1 = Ok (-1).
Proof.
  induction n as [|n IH]; intros i q H; [done|].
  rewrite connect_loop_step.
  pose proof (H i q ltac:(lia)) as Hi.
  destruct (connect_attempt pf o i q) as [r q1]. simpl in Hi. subst r.
  rewrite decide_True by done.
  apply IH. intros j q' Hj. apply H. lia.
Qed.

Lemma master_exec_parent pf o handle q :
  fork_ret o ≠ -1 → fork_ret o ≠ 0 →
  master_exec pf o handle q = (Ok (), sys (SysClose handle) (sys SysFork q)).
Proof.
  intros H1 H2. unfold master_exec. by rewrite !decide_False by done.
Qed.

Lemma master_connect_connects pf o group_name p :
  (count_connects (syscalls (master_connect pf o group_name p).2)
   ≤ count_connects (syscalls p) + 5)%nat.
Proof.
  destruct (connect_loop_syscalls pf o 5 0%nat p) as (evs & Es & _ & Hc).
  destruct (connect_loop pf o 5 0 p) as [r p1] eqn:E. simpl in Es.
  assert (Hp1 : (count_connects (syscalls p1) ≤ count_connects (syscalls p) + 5)%nat).
  { rewrite Es, count_connects_app. lia. }
  destruct r as [h| | | |];
    try (rewrite (master_connect_not_connected _ _ _ _ _ _ E) by done; done).
  rewrite (master_connect_connected _ _ _ _ _ _ E).
  case_decide; [done|].
  destruct (first_is_nul group_name); [done|].
  case_decide; [done|]. cbv zeta.
  assert (Hw : ∀ data, count_connects (syscalls (sys (SysWrite h data) p1))
                       = count_connects (syscalls p1)).
  { intros data. simpl. rewrite count_connects_app.
    unfold count_connects. simpl. lia. }
  case_decide; [simpl fst; simpl snd; by rewrite Hw|].
  unfold and_return, master_read_env. cbn [snd].
  rewrite read_env_loop_connects. simpl. rewrite count_connects_app.
  unfold count_connects at 2. simpl. lia.
Qed.

(** C9, as stated, fails: an attempt that finds the connection refused
    does not go back to connecting once the stale socket file is removed;
    it goes on to create the socket and start the supervisor, as on a
    missing path. *)
Lemma connection_refused_creates_socket :
  connect_attempt example_platform os_stale_socket 0 fresh_proc
  = (Ok (-1),
     {| environ := [];
        syscalls := [SysConnect "/var/run/dovecot/master";
                     SysUnlink "/var/run/dovecot/master";
                     SysListen "/var/run/dovecot/master";
                     SysFork; SysClose 9] |})
  ∧ connect_attempt_as_specified example_platform os_stale_socket 0 fresh_proc
    = (Ok (-1),
       {| environ := [];
          syscalls := [SysConnect "/var/run/dovecot/master";
                       SysUnlink "/var/run/dovecot/master"] |}).
Proof. split; vm_compute; reflexivity. Qed.

(** C9, amended. master_connect connects at most 5 times. An attempt
    that connects ends the loop. On connection-refused the attempt removes
    the socket file (an unlink failure is only logged) and then, exactly
    as on a missing path, tries to create the socket: when that works the
    supervisor is started and the loop goes on, when another process was
    faster (address in use) the loop goes on, and any other listen failure
    is fatal at once, as is any other connect failure and a failing fork.
    Five attempts that all end without a descriptor are fatal. *)
Theorem connect_retry_policy pf o group_name p :
  (count_connects (syscalls (master_connect pf o group_name p).2)
   ≤ count_connects (syscalls p) + 5)%nat ∧
  (∀ i q,
     let path := master_path pf in
     let q1 := sys (SysConnect path) q in
     ((net_connect_unix o i).1 ≠ -1 →
        connect_attempt pf o i q = (Ok (net_connect_unix o i).1, q1)) ∧
     ((net_connect_unix o i).1 = -1 →
      (net_connect_unix o i).2 = ECONNREFUSED →
        connect_attempt pf o i q
        = create_master_socket pf o i
            (if decide (unlink o i < 0)
             then sys (LogError "unlink failed") (sys (SysUnlink path) q1)
             else sys (SysUnlink path) q1)) ∧
     ((net_connect_unix o i).1 = -1 →
      (net_connect_unix o i).2 = ENOENT →
        connect_attempt pf o i q = create_master_socket pf o i q1) ∧
     ((net_connect_unix o i).1 = -1 →
      (net_connect_unix o i).2 ≠ ECONNREFUSED →
      (net_connect_unix o i).2 ≠ ENOENT →
        connect_attempt pf o i q
        = (Fatal "Can't connect to master UNIX socket", q1))) ∧
  (∀ i q,
     let q2 := sys (SysListen (master_path pf)) q in
     ((net_listen_unix o i).1 ≠ -1 →
      fork_ret (spawn o i) ≠ -1 → fork_ret (spawn o i) ≠ 0 →
        create_master_socket pf o i q
        = (Ok (-1), sys (SysClose (net_listen_unix o i).1) (sys SysFork q2))) ∧
     ((net_listen_unix o i).1 ≠ -1 →
      fork_ret (spawn o i) = -1 →
        create_master_socket pf o i q = (Fatal "fork() failed", sys SysFork q2)) ∧
     ((net_listen_unix o i).1 = -1 →
      (net_listen_unix o i).2 = EADDRINUSE →
        create_master_socket pf o i q = (Ok (-1), q2)) ∧
     ((net_listen_unix o i).1 = -1 →
      (net_listen_unix o i).2 ≠ EADDRINUSE →
        create_master_socket pf o i q
        = (Fatal "Can't create master UNIX socket", q2))) ∧
  (∀ n i q msg q1,
     connect_attempt pf o i q = (Fatal msg, q1) →
     connect_loop pf o (S n) i q = (Fatal msg, q1)) ∧
  (∀ n i q handle q1,
     connect_attempt pf o i q = (Ok handle, q1) →
     connect_loop pf o (S n) i q
     = if decide (handle = -1) then connect_loop pf o n (S i) q1
       else (Ok handle, q1)) ∧
  (∀ msg p1,
     connect_loop pf o 5 0 p = (Fatal msg, p1) →
     master_connect pf o group_name p = (Fatal msg, p1)) ∧
  ((∀ i q, (i < 5)%nat → (connect_attempt pf o i q).1 = Ok (-1)) →
     (master_connect pf o group_name p).1
     = Fatal "Couldn't use/create UNIX socket").
Proof.
  split; [apply master_connect_connects|].
  split.
  { intros i q path q1. rewrite connect_attempt_cases. cbv zeta.
    fold path. fold q1. repeat split.
    - intros H. by rewrite decide_True.
    - intros H1 H2. rewrite decide_False by (intros ?; done).
      by rewrite decide_True.
    - intros H1 H2. rewrite decide_False by (intros ?; done).
      rewrite decide_False by (rewrite H2; done).
      by rewrite decide_False by (intros ?; done).
    - intros H1 H2 H3. rewrite decide_False by (intros ?; done).
      rewrite decide_False by done. by rewrite decide_True. }
  split.
  { intros i q q2. unfold create_master_socket. fold q2. repeat split.
    - intros H1 H2 H3. rewrite decide_True by done. unfold run_bind.
      by rewrite master_exec_parent.
    - intros H1 H2. rewrite decide_True by done. unfold run_bind, master_exec.
      by rewrite decide_True.
    - intros H1 H2. rewrite decide_False by (intros ?; done).
      by rewrite decide_False by (intros ?; done).
    - intros H1 H2. rewrite decide_False by (intros ?; done).
      by rewrite decide_True. }
  split.
  { intros n i q msg q1 E. by rewrite connect_loop_step, E. }
  split.
  { intros n i q handle q1 E. by rewrite connect_loop_step, E. }
  split.
  { intros msg p1 E. by apply master_connect_not_connected. }
  intros Hall.
  pose proof (connect_loop_exhausted pf o 5 0%nat p) as Hex.
  destruct (connect_loop pf o 5 0 p) as [r p1] eqn:E. simpl in Hex.
  rewrite Hex in E by (intros j q' Hj; apply Hall; lia).
  rewrite (master_connect_connected _ _ _ _ _ _ E).
  by rewrite decide_True.
Qed.

Lemma connect_retry_policy_witness :
  connect_attempt example_platform os_stale_socket 0 fresh_proc
  = create_master_socket example_platform os_stale_socket 0
      (sys (SysUnlink "/var/run/dovecot/master")
         (sys (SysConnect "/var/run/dovecot/master") fresh_proc))
  ∧ create_master_socket example_platform os_stale_socket 0
      (sys (SysUnlink "/var/run/dovecot/master")
         (sys (SysConnect "/var/run/dovecot/master") fresh_proc))
    = (Ok (-1),
       sys (SysClose 9) (sys SysFork
         (sys (SysListen "/var/run/dovecot/master")
            (sys (SysUnlink "/var/run/dovecot/master")
               (sys (SysConnect "/var/run/dovecot/master") fresh_proc))))).
Proof.
  destruct (connect_retry_policy example_platform os_stale_socket [] fresh_proc)
    as (_ & Hc & Hl & _).
  destruct (Hc 0%nat fresh_proc) as (_ & Hrefused & _).
  destruct (Hl 0%nat (sys (SysUnlink "/var/run/dovecot/master")
                       (sys (SysConnect "/var/run/dovecot/master") fresh_proc)))
    as (Hspawn & _).
  split.
  - apply Hrefused; reflexivity.
  - apply Hspawn; vm_compute; discriminate.
Defined.

(** * Agreement of the table and the clients *)

Lemma consistent_started n : consistent (started n).
Proof.
  split_and!.
  - intros tag c H. unfold hash_lookup in H. simpl in H.
    by rewrite lookup_empty in H.
  - intros c cl H Htag. exfalso. revert c cl H Htag.
    induction n as [|n IH]; intros c cl H Htag; simpl in H.
    + by rewrite lookup_empty in H.
    + destruct (decide (c = S n)) as [->|Hne].
      * rewrite lookup_insert_eq in H. by simplify_eq.
      * rewrite lookup_insert_ne in H by done. eauto.
  - done.
Qed.

Lemma consistent_two_pending : consistent two_pending.
Proof.
  unfold consistent, hash_lookup, two_pending. cbn [master_requests clients].
  split_and!.
  - intros tag c H.
    apply lookup_insert_Some in H as [[<- <-]|[H1 H]].
    { eexists. split; [reflexivity|]. split; [done|]. by eexists. }
    apply lookup_singleton_Some in H as [<- <-].
    eexists. split; [reflexivity|]. split; [done|]. by eexists.
  - intros c cl H Htag.
    apply lookup_insert_Some in H as [[<- <-]|[H1 H]]; [reflexivity|].
    apply lookup_insert_Some in H as [[<- <-]|[H2 H]]; [reflexivity|].
    apply lookup_singleton_Some in H as [<- <-]. done.
  - reflexivity.
Qed.

(** X1 (master_request_login): a request for a client that has none
    outstanding, under a tag that is not in the table, keeps the table and
    the clients in agreement. *)
Theorem master_request_login_consistent pf send_ret c cb auth_pid auth_id s cl s' :
  consistent s →
  clients s !! c = Some cl →
  master_tag cl = 0 →
  hash_lookup (tag_after (master_tag_counter s)) s = None →
  master_request_login pf send_ret c cb auth_pid auth_id s = Ok s' →
  consistent s'.
Proof.
  intros (I1 & I2 & I3) Hc Hidle Hfresh Hrun.
  unfold master_request_login in Hrun.
  destruct (decide (auth_pid = 0)); [done|].
  rewrite next_tag_eq in Hrun. simpl in Hrun. rewrite Hc in Hrun.
  destruct (decide (send_ret ≠ sizeof_request pf)); [done|].
  injection Hrun as <-.
  set (tag := tag_after (master_tag_counter s)) in *.
  unfold consistent, hash_lookup in *. simpl. split_and!.
  - intros t c0 H. destruct (decide (t = tag)) as [->|Hne].
    + rewrite lookup_insert_eq in H. injection H as <-.
      rewrite lookup_alter_eq, Hc. simpl. eauto.
    + rewrite lookup_insert_ne in H by done.
      destruct (I1 _ _ H) as (cl0 & Hcl0 & Ht & Hcb).
      assert (c0 ≠ c) as Hc0.
      { intros ->. rewrite Hc in Hcl0. injection Hcl0 as <-.
        rewrite Hidle in Ht. subst t. by rewrite I3 in H. }
      rewrite lookup_alter_ne by done. eauto.
  - intros c1 cl1 H Htag. destruct (decide (c1 = c)) as [->|Hne].
    + rewrite lookup_alter_eq, Hc in H. simpl in H. injection H as <-.
      simpl. by rewrite lookup_insert_eq.
    + rewrite lookup_alter_ne in H by done.
      pose proof (I2 _ _ H Htag) as Hent.
      rewrite lookup_insert_ne; [done|].
      intros E. rewrite <- E in Hent. by rewrite Hfresh in Hent.
  - rewrite lookup_insert_ne; [done|]. apply tag_after_nonzero.
Qed.

Lemma master_request_login_consistent_witness :
  consistent
    (set_clients (alter (set_master 1 (Some 0%nat)) 1%nat (idle_clients 2))
       (set_master_tag_counter 1
          (set_master_requests {[ 1 := 1%nat ]}
             (log (EvFdSend 3 11
                     (MasterLoginRequest 1 1 1 1 (example_ip Byte.x01)
                        (example_ip Byte.x02)) 56) (started 2))))).
Proof.
  apply (master_request_login_consistent example_platform 56 1%nat 0%nat 1 1
           (started 2) (idle_client 11)).
  - apply consistent_started.
  - reflexivity.
  - reflexivity.
  - reflexivity.
  - reflexivity.
Defined.

(** X2 (master_request_abort): cancelling keeps the table and the clients
    in agreement, whether or not the client had a request outstanding. *)
Theorem master_request_abort_consistent c s s' :
  consistent s →
  master_request_abort c s = Ok s' →
  consistent s'.
Proof.
  intros (I1 & I2 & I3) Hrun. unfold master_request_abort in Hrun.
  destruct (clients s !! c) as [cl|] eqn:Hc; [|done].
  injection Hrun as <-.
  unfold consistent, hash_lookup in *. simpl. split_and!.
  - intros t c0 H. apply lookup_delete_Some in H as [Hne H].
    destruct (I1 _ _ H) as (cl0 & Hcl0 & Ht & Hcb).
    assert (c0 ≠ c) as Hc0.
    { intros ->. rewrite Hc in Hcl0. by simplify_eq. }
    rewrite lookup_alter_ne by done. eauto.
  - intros c1 cl1 H Htag. destruct (decide (c1 = c)) as [->|Hne].
    + rewrite lookup_alter_eq, Hc in H. simpl in H. by simplify_eq.
    + rewrite lookup_alter_ne in H by done.
      pose proof (I2 _ _ H Htag) as Hent.
      rewrite lookup_delete_ne; [done|].
      intros E. destruct (decide (master_tag cl = 0)) as [Hz|Hnz].
      * rewrite <- E, Hz in Hent. by rewrite I3 in Hent.
      * pose proof (I2 _ _ Hc Hnz) as Hent'. rewrite E in Hent'.
        rewrite Hent in Hent'. by simplify_eq.
  - apply lookup_delete_None. by right.
Qed.

Lemma master_request_abort_consistent_witness :
  consistent (client_store 2%nat 0 None (hash_remove 2 two_pending)).
Proof.
  apply (master_request_abort_consistent 2%nat two_pending).
  - apply consistent_two_pending.
  - reflexivity.
Defined.

Lemma client_destroy_settles c cl s :
  hash_lookup 0 s = None →
  clients s !! c = Some cl →
  master_tag cl = 0 →
  settles_own_client c s (client_destroy c s).
Proof.
  intros Hzero Hc Htag. unfold client_destroy. rewrite Hc, Htag.
  unfold settles_own_client, hash_lookup in *. simpl. split_and!.
  - intros c' Hne. by rewrite lookup_delete_ne.
  - intros t c' _ H. rewrite lookup_delete_ne; [done|].
    intros <-. by rewrite Hzero in H.
  - intros t c' H. by apply lookup_delete_Some in H as [_ H].
  - right. by rewrite lookup_delete_eq.
Qed.

(** X3 (request_handle): dispatching a reply keeps the table and the
    clients in agreement when the callback, in the state in which
    request_handle invokes it, settles only its own client: it leaves the
    other clients and their entries as they are, adds no entry, and leaves
    its client as it is or destroys it. *)
Theorem request_handle_consistent callbacks reply s s' :
  consistent s →
  (∀ c cl cb s2,
     hash_lookup (reply_tag reply) s = Some c →
     clients s !! c = Some cl →
     master_callback cl = Some cb →
     callbacks cb c (reply_success reply)
       (callback_state cb c (reply_success reply) s) = Ok s2 →
     settles_own_client c (callback_state cb c (reply_success reply) s) s2) →
  request_handle callbacks reply s = Ok s' →
  consistent s'.
Proof.
  intros (I1 & I2 & I3) Hcb Hrun. unfold request_handle in Hrun.
  destruct (hash_lookup (reply_tag reply) s) as [c|] eqn:Hent; [|done].
  destruct (clients s !! c) as [cl|] eqn:Hc; [|done].
  destruct (master_callback cl) as [cb|] eqn:Hcall; [|done].
  destruct (callbacks cb c (reply_success reply) _) as [s2| | | |] eqn:Hs2;
    try done.
  injection Hrun as <-.
  destruct (Hcb c cl cb s2 eq_refl Hc Hcall Hs2)
    as (Hother & Hkept & Hnonew & Hown).
  unfold callback_state, hash_lookup in *. simpl in Hother, Hkept, Hnonew, Hown.
  rewrite lookup_alter_eq, Hc in Hown. simpl in Hown.
  destruct (I1 _ _ Hent) as (cl' & Hcl' & Htag & _).
  rewrite Hc in Hcl'. injection Hcl' as <-.
  unfold consistent, hash_lookup. simpl. split_and!.
  - intros t c0 H. apply lookup_delete_Some in H as [Hne H].
    apply Hnonew in H.
    destruct (I1 _ _ H) as (cl0 & Hcl0 & Ht & Hcb0).
    assert (c0 ≠ c) as Hc0.
    { intros ->. rewrite Hc in Hcl0. simplify_eq. }
    rewrite Hother, lookup_alter_ne by done. eauto.
  - intros c1 cl1 H Hnz. destruct (decide (c1 = c)) as [->|Hne].
    + destruct Hown as [Hown|Hown]; rewrite Hown in H; by simplify_eq.
    + rewrite Hother, lookup_alter_ne in H by done.
      pose proof (I2 _ _ H Hnz) as Hent1.
      rewrite lookup_delete_ne; [by apply Hkept|].
      intros E. rewrite E in Hent. rewrite Hent in Hent1. by simplify_eq.
  - apply lookup_delete_None. right.
    destruct (master_requests s2 !! 0) as [c0|] eqn:E0; [|done].
    apply Hnonew in E0. by rewrite I3 in E0.
Qed.

Lemma request_handle_consistent_witness :
  consistent
    (hash_remove 2 (client_destroy 2%nat (callback_state 0%nat 2%nat 1 two_pending))).
Proof.
  apply (request_handle_consistent destroy_callbacks
           (MasterLoginReply 2 1) two_pending).
  - apply consistent_two_pending.
  - intros c cl cb s2 Hent Hc Hcall Hrun.
    change (Some 2%nat = Some c) in Hent. injection Hent as <-.
    injection Hrun as <-.
    apply (client_destroy_settles 2%nat
             (set_master 0 None (set_master 2 (Some 0%nat) (idle_client 12)))).
    + reflexivity.
    + reflexivity.
    + reflexivity.
  - reflexivity.
Defined.

(** X4 (master_close): a teardown that returns leaves the table and the
    clients in agreement, and when it found the channel registered the
    table is empty afterwards. *)
Theorem master_close_consistent close_ret s s' :
  consistent s →
  master_close close_ret s = Ok s' →
  consistent s' ∧ (is_Some (io_master s) → master_requests s' = ∅).
Proof.
  intros (I1 & I2 & I3) Hrun. unfold master_close in Hrun.
  destruct (io_master s) as [io|] eqn:Hio.
  2:{ injection Hrun as <-. split; [done|]. intros [? [=]]. }
  destruct (decide (close_ret < 0)); [done|]. injection Hrun as <-.
  unfold clients_destroy_all.
  match goal with |- context [foldr client_destroy ?s0 _] => set (s6 := s0) end.
  destruct (destroy_list (pending_clients s6) s6)
    as (_ & Hin & Hout & Htab & Htag & _).
  { apply NoDup_pending_clients. }
  { intros c Hc. apply elem_of_pending_clients in Hc as (cl & Hcl & _). eauto. }
  set (s' := foldr client_destroy s6 (pending_clients s6)) in *.
  assert (∀ t, hash_lookup t s' = None) as Hempty.
  { intros t. destruct (hash_lookup t s6) as [c|] eqn:Hent; [|by apply Htab].
    destruct (I1 _ _ Hent) as (cl & Hcl & Ht & _). subst t.
    apply (Htag c cl); [|done]. apply elem_of_pending_clients.
    exists cl. split; [done|]. intros E. rewrite E in Hent.
    unfold hash_lookup in Hent, I3. simpl in Hent. by rewrite I3 in Hent. }
  split.
  - split_and!.
    + intros t c H. by rewrite Hempty in H.
    + intros c cl H Hnz. exfalso.
      destruct (decide (c ∈ pending_clients s6)) as [Hp|Hp].
      * by rewrite (Hin c Hp) in H.
      * rewrite (Hout c Hp) in H. apply Hp, elem_of_pending_clients. eauto.
    + apply Hempty.
  - intros _. apply map_eq. intros t. rewrite lookup_empty. apply Hempty.
Qed.

Lemma master_close_consistent_witness :
  ∃ s', master_close 0 two_pending = Ok s' ∧ consistent s' ∧
        (is_Some (io_master two_pending) → master_requests s' = ∅).
Proof.
  eexists. split; [reflexivity|].
  apply (master_close_consistent 0 two_pending).
  - apply consistent_two_pending.
  - reflexivity.
Defined.

(** X5 (master_request_abort): cancelling one client's request removes
    nobody else's: every other client, and every table entry that leads
    to another client, is as before. This holds also when the client had
    no request outstanding and the code removes the key 0. *)
Theorem master_request_abort_spares_others c s s' :
  consistent s →
  master_request_abort c s = Ok s' →
  (∀ tag c', c' ≠ c → hash_lookup tag s = Some c' → hash_lookup tag s' = Some c') ∧
  (∀ c', c' ≠ c → clients s' !! c' = clients s !! c') ∧
  (∀ tag c', hash_lookup tag s' = Some c' → hash_lookup tag s = Some c').
Proof.
  intros (I1 & I2 & I3) Hrun. unfold master_request_abort in Hrun.
  destruct (clients s !! c) as [cl|] eqn:Hc; [|done].
  injection Hrun as <-. unfold hash_lookup in *. simpl. split_and!.
  - intros t c' Hne H. rewrite lookup_delete_ne; [done|].
    intros E. destruct (decide (master_tag cl = 0)) as [Hz|Hnz].
    + rewrite <- E, Hz, I3 in H. done.
    + pose proof (I2 _ _ Hc Hnz) as Hent. rewrite E, H in Hent. by simplify_eq.
  - intros c' Hne. by rewrite lookup_alter_ne.
  - intros t c' H. by apply lookup_delete_Some in H as [_ H].
Qed.

Lemma master_request_abort_spares_others_witness :
  (∀ tag c', c' ≠ 3%nat → hash_lookup tag two_pending = Some c' →
     hash_lookup tag (client_store 3%nat 0 None (hash_remove 0 two_pending))
     = Some c') ∧
  (∀ c', c' ≠ 3%nat →
     clients (client_store 3%nat 0 None (hash_remove 0 two_pending)) !! c'
     = clients two_pending !! c') ∧
  (∀ tag c',
     hash_lookup tag (client_store 3%nat 0 None (hash_remove 0 two_pending))
     = Some c' → hash_lookup tag two_pending = Some c').
Proof.
  apply (master_request_abort_spares_others 3%nat two_pending).
  - apply consistent_two_pending.
  - reflexivity.
Defined.

Lemma master_request_login_spares pf send_ret c cb auth_pid auth_id s s' :
  hash_lookup (tag_after (master_tag_counter s)) s = None →
  master_request_login pf send_ret c cb auth_pid auth_id s = Ok s' →
  spares_others c s s'.
Proof.
  intros Hfresh Hrun. unfold master_request_login in Hrun.
  destruct (decide (auth_pid = 0)); [done|].
  rewrite next_tag_eq in Hrun. simpl in Hrun.
  destruct (clients s !! c) as [cl|]; [|done].
  destruct (decide (send_ret ≠ sizeof_request pf)); [done|].
  injection Hrun as <-.
  intros t c' Hne H. unfold hash_lookup in *. simpl. split.
  - rewrite lookup_insert_ne; [done|]. intros <-. by rewrite Hfresh in H.
  - by rewrite lookup_alter_ne.
Qed.

(** X6 (request_handle): a reply settles its own request only. When the
    callback, in the state in which request_handle invokes it, leaves
    the pending requests of the other clients alone (it may destroy its
    client or send a new request for it), the answered tag is free
    afterwards and every other pending request is still in the table, its
    client untouched. *)
Theorem request_handle_spares_others callbacks reply s s' :
  consistent s →
  (∀ c cl cb s2,
     hash_lookup (reply_tag reply) s = Some c →
     clients s !! c = Some cl →
     master_callback cl = Some cb →
     callbacks cb c (reply_success reply)
       (callback_state cb c (reply_success reply) s) = Ok s2 →
     spares_others c (callback_state cb c (reply_success reply) s) s2) →
  request_handle callbacks reply s = Ok s' →
  hash_lookup (reply_tag reply) s' = None ∧
  (∀ tag c', tag ≠ reply_tag reply → hash_lookup tag s = Some c' →
     hash_lookup tag s' = Some c' ∧ clients s' !! c' = clients s !! c').
Proof.
  intros (I1 & I2 & I3) Hcb Hrun. unfold request_handle in Hrun.
  destruct (hash_lookup (reply_tag reply) s) as [c|] eqn:Hent; [|done].
  destruct (clients s !! c) as [cl|] eqn:Hc; [|done].
  destruct (master_callback cl) as [cb|] eqn:Hcall; [|done].
  destruct (callbacks cb c (reply_success reply) _) as [s2| | | |] eqn:Hs2;
    try done.
  injection Hrun as <-.
  pose proof (Hcb c cl cb s2 eq_refl Hc Hcall Hs2) as Hspare.
  split; [apply hash_lookup_remove|].
  intros t c0 Hne H.
  assert (c0 ≠ c) as Hc0.
  { intros ->. destruct (I1 _ _ H) as (cl0 & Hcl0 & Ht & _).
    destruct (I1 _ _ Hent) as (cl1 & Hcl1 & Ht1 & _).
    rewrite Hcl0 in Hcl1. simplify_eq. }
  destruct (Hspare t c0 Hc0) as [Hkept Hsame]; [exact H|].
  unfold callback_state, hash_lookup in *. simpl in Hsame. simpl.
  rewrite lookup_delete_ne by done. split; [exact Hkept|].
  by rewrite Hsame, lookup_alter_ne.
Qed.

(** The callback sends a new request for its client: the reply to tag 2
    leaves the request under tag 1 alone. *)
Lemma request_handle_spares_others_witness :
  ∃ s', request_handle retry_callbacks (MasterLoginReply 2 1) two_pending
        = Ok s' ∧
    hash_lookup 2 s' = None ∧
    (∀ tag c', tag ≠ 2 → hash_lookup tag two_pending = Some c' →
       hash_lookup tag s' = Some c' ∧ clients s' !! c' = clients two_pending !! c').
Proof.
  eexists. split; [reflexivity|].
  apply (request_handle_spares_others retry_callbacks
           (MasterLoginReply 2 1) two_pending).
  - apply consistent_two_pending.
  - intros c cl cb s2 Hent Hc Hcall Hrun.
    change (Some 2%nat = Some c) in Hent. injection Hent as <-.
    apply (master_request_login_spares example_platform 56 2%nat cb 1 1
             (callback_state cb 2%nat 1 two_pending) s2); [reflexivity|exact Hrun].
  - reflexivity.
Defined.

(** * Receiving the reply in pieces *)

Lemma client_destroy_master_pos c s : master_pos (client_destroy c s) = master_pos s.
Proof. unfold client_destroy. by destruct (clients s !! c). Qed.

Lemma clients_destroy_all_master_pos s :
  master_pos (clients_destroy_all s) = master_pos s.
Proof.
  unfold clients_destroy_all. induction (pending_clients s) as [|c l IH]; [done|].
  simpl. by rewrite client_destroy_master_pos.
Qed.

(** X7 (master_input): the fill offset carries a partial record over to
    the next wake. Two wakes that receive [d1] and then [d2], still within
    the record, do what one wake receiving [d1 ++ d2] does: the same
    buffer, the same offset and, when the record is complete, the same
    dispatch. *)
Theorem master_input_reassembles callbacks d1 d2 close_ret s :
  0 ≤ master_pos s →
  master_pos s + Z.of_nat (length d1) + Z.of_nat (length d2) ≤ sizeof_reply →
  d2 ≠ [] →
  (s1 ← master_input callbacks (Z.of_nat (length d1)) d1 close_ret s;
   master_input callbacks (Z.of_nat (length d2)) d2 close_ret s1)
  = master_input callbacks (Z.of_nat (length (d1 ++ d2))) (d1 ++ d2) close_ret s.
Proof.
  intros Hpos Hfit Hd2.
  assert (0 < Z.of_nat (length d2)) as Hlen2 by (destruct d2; [done|simpl; lia]).
  unfold sizeof_reply in Hfit.
  assert (master_input callbacks (Z.of_nat (length d1)) d1 close_ret s
          = Ok (set_master_pos (master_pos s + Z.of_nat (length d1))
                  (set_master_buf
                     (list_inserts (Z.to_nat (master_pos s)) d1 (master_buf s)) s)))
    as ->.
  { unfold master_input. rewrite decide_False by lia. unfold net_receive_store.
    cbn [master_pos set_master_buf set_master_pos].
    rewrite to_uint_small by (unfold uint_max; lia).
    rewrite decide_True by (unfold sizeof_reply; lia).
    by rewrite Nat2Z.id, firstn_all. }
  cbn [mbind outcome_bind].
  unfold master_input. rewrite !decide_False by lia.
  unfold net_receive_store.
  cbn [master_pos master_buf set_master_buf set_master_pos].
  rewrite !Nat2Z.id, !firstn_all.
  rewrite list_inserts_app_l, length_app, Nat2Z.inj_add.
  rewrite !(to_uint_small) by (unfold uint_max; lia).
  replace (length d1 + Z.to_nat (master_pos s))%nat
    with (Z.to_nat (master_pos s + Z.of_nat (length d1))) by lia.
  replace (master_pos s + (Z.of_nat (length d1) + Z.of_nat (length d2)))
    with (master_pos s + Z.of_nat (length d1) + Z.of_nat (length d2)) by lia.
  rewrite (decide_False (P := Z.of_nat (length d1) + Z.of_nat (length d2) < 0))
    by lia.
  reflexivity.
Qed.

Lemma master_input_reassembles_witness :
  (s1 ← master_input quiet_callbacks 3 [Byte.x01; Byte.x00; Byte.x00] 0 one_pending;
   master_input quiet_callbacks 5
     [Byte.x00; Byte.x01; Byte.x00; Byte.x00; Byte.x00] 0 s1)
  = master_input quiet_callbacks 8
      [Byte.x01; Byte.x00; Byte.x00; Byte.x00;
       Byte.x01; Byte.x00; Byte.x00; Byte.x00] 0 one_pending.
Proof.
  apply (master_input_reassembles quiet_callbacks
           [Byte.x01; Byte.x00; Byte.x00]
           [Byte.x00; Byte.x01; Byte.x00; Byte.x00; Byte.x00] 0 one_pending).
  - simpl. lia.
  - simpl. unfold sizeof_reply. lia.
  - done.
Defined.

(** X8 (master_input): the fill offset stays inside the record. As long
    as the receive call returns no more than it was asked for, a wake
    that returns leaves the offset in [0, sizeof(master_buf)), so the next
    receive is again into the buffer. *)
Theorem master_input_offset_in_bounds callbacks ret data close_ret s s' :
  0 ≤ master_pos s < sizeof_reply →
  ret ≤ sizeof_reply - master_pos s →
  master_input callbacks ret data close_ret s = Ok s' →
  0 ≤ master_pos s' < sizeof_reply.
Proof.
  intros Hpos Hret Hrun. unfold master_input in Hrun.
  destruct (decide (ret < 0)) as [Hneg|Hnn].
  - unfold master_close in Hrun. destruct (io_master s); [|by simplify_eq].
    destruct (decide (close_ret < 0)); [done|]. injection Hrun as <-.
    by rewrite clients_destroy_all_master_pos.
  - unfold net_receive_store in Hrun.
    cbn [master_pos master_buf set_master_buf set_master_pos] in Hrun.
    unfold sizeof_reply in *.
    rewrite to_uint_small in Hrun by (unfold uint_max; lia).
    destruct (decide (master_pos s + ret < 8)).
    + injection Hrun as <-. simpl. lia.
    + destruct (request_handle _ _ _) as [s3| | | |]; try done.
      injection Hrun as <-. simpl. lia.
Qed.

Lemma master_input_offset_in_bounds_witness :
  0 ≤ master_pos
        (set_master_pos 3
           (set_master_buf
              ([Byte.x01; Byte.x00; Byte.x00] ++ replicate 5 Byte.x00) one_pending))
    < sizeof_reply.
Proof.
  apply (master_input_offset_in_bounds quiet_callbacks 3
           [Byte.x01; Byte.x00; Byte.x00] 0 one_pending).
  - done.
  - done.
  - reflexivity.
Defined.

(** * Start and shutdown of the channel *)

Lemma io_removed_app tr1 tr2 :
  io_removed (tr1 ++ tr2) = io_removed tr1 ++ io_removed tr2.
Proof. unfold io_removed. apply omap_app. Qed.

Lemma io_removed_destroy l : io_removed (EvClientDestroy <$> l) = [].
Proof. induction l as [|c l IH]; [done|]. simpl. apply IH. Qed.

Lemma requests_sent_app tr1 tr2 :
  requests_sent (tr1 ++ tr2) = requests_sent tr1 ++ requests_sent tr2.
Proof. unfold requests_sent. apply omap_app. Qed.

(** X9 (master_close, master_notify_finished, master_deinit): teardown is
    final. After a master_close that returned, the channel is
    unregistered, another master_close and a master_notify_finished do
    nothing whatever the system would answer, and master_deinit removes
    no io handle: over master_close and master_deinit together the handle
    is removed exactly once when it was registered and never otherwise. *)
Theorem master_close_is_final pf close_ret s s1 :
  master_close close_ret s = Ok s1 →
  io_master s1 = None ∧
  (∀ r, master_close r s1 = Ok s1) ∧
  (∀ r, master_notify_finished pf r s1 = Ok s1) ∧
  io_removed (trace (master_deinit s1))
  = io_removed (trace s) ++ option_list (io_master s).
Proof.
  intros Hrun.
  assert (io_master s1 = None ∧
          io_removed (trace s1) = io_removed (trace s) ++ option_list (io_master s))
    as [Hio Htr].
  { unfold master_close in Hrun. destruct (io_master s) as [io|] eqn:Hio.
    - destruct (decide (close_ret < 0)); [done|]. injection Hrun as <-.
      unfold clients_destroy_all.
      match goal with |- context [foldr client_destroy ?s0 _] => set (s6 := s0) end.
      destruct (destroy_list (pending_clients s6) s6)
        as (Ht & _ & _ & _ & _ & _ & Hio').
      { apply NoDup_pending_clients. }
      { intros c Hc. apply elem_of_pending_clients in Hc as (cl & Hcl & _). eauto. }
      split; [by rewrite Hio'|].
      rewrite Ht, io_removed_app, io_removed_destroy, app_nil_r.
      subst s6. unfold main_unref, main_close_listen, log. simpl.
      rewrite !io_removed_app. simpl. by rewrite !app_nil_r.
    - injection Hrun as <-. simpl. by rewrite app_nil_r. }
  split_and!; [done| | |].
  - intros r. unfold master_close. by rewrite Hio.
  - intros r. unfold master_notify_finished. by rewrite Hio.
  - unfold master_deinit. simpl. by rewrite Hio.
Qed.

Lemma master_close_is_final_witness :
  ∃ s1, master_close 0 two_pending = Ok s1 ∧
    io_master s1 = None ∧
    (∀ r, master_close r s1 = Ok s1) ∧
    (∀ r, master_notify_finished example_platform r s1 = Ok s1) ∧
    io_removed (trace (master_deinit s1))
    = io_removed (trace two_pending) ++ option_list (io_master two_pending).
Proof.
  eexists. split; [reflexivity|].
  apply (master_close_is_final example_platform 0 two_pending).
  reflexivity.
Defined.

(** X10 (master_init, master_notify_finished): master_init on a process
    whose clients have no request outstanding gives a channel on the new
    descriptor with an empty table that agrees with the clients and a
    fill offset of 0. It consumes no tag, and it sends the master exactly
    one record when asked to notify and none otherwise: the record that
    holds only the protocol version, with no descriptor passed along. *)
Theorem master_init_consistent pf io send_ret handle notify s s' :
  (∀ c cl, clients s !! c = Some cl → master_tag cl = 0) →
  master_init pf io send_ret handle notify s = Ok s' →
  consistent s' ∧
  master_fd s' = handle ∧ io_master s' = Some io ∧ master_pos s' = 0 ∧
  master_requests s' = ∅ ∧
  master_tag_counter s' = master_tag_counter s ∧
  requests_sent (trace s')
  = requests_sent (trace s) ++ (if notify then [(-1, notify_request pf)] else []).
Proof.
  intros Hidle Hrun. unfold master_init in Hrun.
  assert (∀ tr, consistent
            {| master_fd := handle; io_master := Some io; master_requests := ∅;
               master_tag_counter := master_tag_counter s; master_pos := 0;
               master_buf := master_buf s; clients := clients s; trace := tr |})
    as Hcons.
  { intros tr. split_and!.
    - intros t c H. unfold hash_lookup in H. simpl in H.
      by rewrite lookup_empty in H.
    - intros c cl H Hnz. simpl in H. by apply Hidle in H.
    - done. }
  destruct notify.
  - unfold master_notify_finished in Hrun. simpl in Hrun.
    destruct (decide (send_ret ≠ sizeof_request pf)); [done|].
    injection Hrun as <-. split; [apply Hcons|]. simpl.
    split_and!; try done. by rewrite requests_sent_app.
  - injection Hrun as <-. split; [apply Hcons|]. simpl.
    split_and!; try done. by rewrite app_nil_r.
Qed.

Lemma master_init_consistent_witness :
  ∃ s', master_init example_platform 1%nat 56 3 true static_init = Ok s' ∧
    consistent s' ∧
    master_fd s' = 3 ∧ io_master s' = Some 1%nat ∧ master_pos s' = 0 ∧
    master_requests s' = ∅ ∧
    master_tag_counter s' = master_tag_counter static_init ∧
    requests_sent (trace s')
    = requests_sent (trace static_init) ++ [(-1, notify_request example_platform)].
Proof.
  eexists. split; [reflexivity|].
  apply (master_init_consistent example_platform 1%nat 56 3 true static_init).
  - intros c cl H. simpl in H. by rewrite lookup_empty in H.
  - reflexivity.
Defined.

(** * Starting the supervisor and reaching it *)

Lemma env_merge_put x env : x ∈ env_merge x env.
Proof.
  induction env as [|a env IH]; cbn [env_merge]; [by left|].
  destruct (decide (env_key a = env_key x)); [by left|by right].
Qed.

Lemma env_merge_keeps x env e :
  e ∈ env → env_key e ≠ env_key x → e ∈ env_merge x env.
Proof.
  induction env as [|a env IH]; cbn [env_merge]; intros He Hk.
  - by apply elem_of_nil in He.
  - apply elem_of_cons in He as [->|He].
    + rewrite decide_False by done. by left.
    + destruct (decide (env_key a = env_key x)); right; [done|by apply IH].
Qed.

(** X11 (master_exec): the fork splits the process. master_exec returns
    only in the parent, which has then closed the listening descriptor and
    changed nothing in its environment. The process that reaches the
    supervisor's image is the child: it has made the listening descriptor
    its standard input, closed the original, started a session and set
    DOVECOT_INETD=1, every entry of another key being kept. *)
Theorem master_exec_outcomes pf o handle p :
  let r := master_exec pf o handle p in
  (r.1 = Ok () →
     fork_ret o ≠ 0 ∧ fork_ret o ≠ -1 ∧
     environ r.2 = environ p ∧
     syscalls r.2 = syscalls p ++ [SysFork; SysClose handle]) ∧
  (∀ image, r.1 = Exec image →
     fork_ret o = 0 ∧ image = dovecot_path pf ∧
     syscalls r.2
     = syscalls p ++ [SysFork; SysDup2 handle 0; SysClose handle; SysSetsid;
                      SysExecv (dovecot_path pf)] ∧
     bytes "DOVECOT_INETD=1" ∈ environ r.2 ∧
     (∀ e, e ∈ environ p → env_key e ≠ env_key (bytes "DOVECOT_INETD=1") →
           e ∈ environ r.2)).
Proof.
  cbv zeta. unfold master_exec.
  destruct (decide (fork_ret o = -1)); [by split|].
  destruct (decide (fork_ret o = 0)) as [Hchild|Hparent].
  - destruct (decide (dup2_ret o < 0)); [by split|].
    destruct (decide (setsid_ret o < 0)); [by split|].
    destruct (execv_replaces o); [|by split].
    split; [done|]. intros image [= <-]. simpl.
    split_and!; try done.
    + by rewrite <- !app_assoc.
    + apply env_merge_put.
    + intros e He Hk. by apply env_merge_keeps.
  - split; [|done]. intros _. simpl. split_and!; try done.
    by rewrite <- app_assoc.
Qed.

Lemma master_exec_outcomes_witness :
  let r := master_exec example_platform (OsExec 0 0 0 true) 9 example_proc in
  r.1 = Exec "/usr/sbin/dovecot" ∧
  syscalls r.2
  = [SysFork; SysDup2 9 0; SysClose 9; SysSetsid; SysExecv "/usr/sbin/dovecot"] ∧
  bytes "DOVECOT_INETD=1" ∈ environ r.2 ∧
  bytes "PATH=/bin" ∈ environ r.2.
Proof.
  cbv zeta.
  destruct (master_exec_outcomes example_platform (OsExec 0 0 0 true) 9 example_proc)
    as [_ H].
  destruct (H "/usr/sbin/dovecot" eq_refl) as (_ & _ & Hsys & Hput & Hkeep).
  split; [reflexivity|]. split; [exact Hsys|]. split; [exact Hput|].
  apply Hkeep.
  - simpl. by left.
  - vm_compute. discriminate.
Defined.

Lemma master_exec_returns pf o handle q q' :
  master_exec pf o handle q = (Ok (), q') → environ q' = environ q.
Proof.
  unfold master_exec. intros H.
  destruct (decide (fork_ret o = -1)); [done|].
  destruct (decide (fork_ret o = 0)).
  - destruct (decide (dup2_ret o < 0)); [done|].
    destruct (decide (setsid_ret o < 0)); [done|].
    by destruct (execv_replaces o).
  - by injection H as <-.
Qed.

Lemma create_master_socket_returns pf o i q x q' :
  create_master_socket pf o i q = (Ok x, q') → x = -1 ∧ environ q' = environ q.
Proof.
  unfold create_master_socket, run_bind. intros H.
  destruct (decide ((net_listen_unix o i).1 ≠ -1)).
  - destruct (master_exec pf (spawn o i) (net_listen_unix o i).1
                (sys (SysListen (master_path pf)) q)) as [[[]| | | |] q1] eqn:E;
      try done.
    injection H as <- <-. split; [done|].
    by apply master_exec_returns in E.
  - destruct (decide ((net_listen_unix o i).2 ≠ EADDRINUSE)); [done|].
    by injection H as <- <-.
Qed.

Lemma connect_loop_first pf o n : ∀ i p h p1,
  connect_loop pf o n i p = (Ok h, p1) →
  h ≠ -1 →
  ∃ k, (i ≤ k < i + n)%nat ∧ (net_connect_unix o k).1 = h ∧
       (∀ j, (i ≤ j < k)%nat → (net_connect_unix o j).1 = -1) ∧
       environ p1 = environ p.
Proof.
  induction n as [|n IH]; intros i p h p1 H Hh.
  - simpl in H. by simplify_eq.
  - rewrite connect_loop_step, connect_attempt_cases in H. cbv zeta in H.
    destruct (decide ((net_connect_unix o i).1 ≠ -1)) as [Hc|Hc].
    + rewrite decide_False in H by done. injection H as <- <-.
      exists i. split_and!; [lia|lia|done| |done]. intros j Hj. lia.
    + assert ((net_connect_unix o i).1 = -1) as Hfail.
      { destruct (decide ((net_connect_unix o i).1 = -1)); [done|].
        by destruct Hc. }
      assert (∀ q, environ q = environ p →
                match create_master_socket pf o i q with
                | (Ok handle, q1) =>
                    if decide (handle = -1) then connect_loop pf o n (S i) q1
                    else (Ok handle, q1)
                | (Fatal msg, q1) => (Fatal msg, q1)
                | (Panic msg, q1) => (Panic msg, q1)
                | (Exec image, q1) => (Exec image, q1)
                | (Fault, q1) => (Fault, q1)
                end = (Ok h, p1) →
                ∃ k, (i ≤ k < i + S n)%nat ∧ (net_connect_unix o k).1 = h ∧
                     (∀ j, (i ≤ j < k)%nat → (net_connect_unix o j).1 = -1) ∧
                     environ p1 = environ p) as Hgo.
      { intros q Hq Hrun.
        destruct (create_master_socket pf o i q) as [[x| | | |] q1] eqn:Ecr;
          try done.
        apply create_master_socket_returns in Ecr as [-> Henv].
        rewrite decide_True in Hrun by done.
        destruct (IH _ _ _ _ Hrun Hh) as (k & Hk & Hfd & Hbefore & Henv').
        exists k. split_and!; [lia|lia|done| |congruence].
        intros j Hj. destruct (decide (j = i)) as [->|]; [done|].
        apply Hbefore. lia. }
      destruct (decide ((net_connect_unix o i).2 = ECONNREFUSED)).
      * destruct (decide (unlink o i < 0)); by apply Hgo in H.
      * destruct (decide ((net_connect_unix o i).2 ≠ ENOENT)); [done|].
        by apply Hgo in H.
Qed.

(** X12 (master_connect): when master_connect returns, the descriptor it
    returns is the one the first successful connect gave, within the five
    attempts and with every earlier connect failed; it is never -1. The
    group name was 1 to 255 bytes long and the write succeeded. *)
Theorem master_connect_returns_first_connected pf o group_name p handle p' :
  master_connect pf o group_name p = (Ok handle, p') →
  handle ≠ -1 ∧
  (∃ k, (k < 5)%nat ∧ (net_connect_unix o k).1 = handle ∧
        ∀ j, (j < k)%nat → (net_connect_unix o j).1 = -1) ∧
  1 ≤ strlen group_name ≤ 255 ∧
  0 ≤ write_full o.
Proof.
  intros H.
  destruct (connect_loop pf o 5 0 p) as [r p1] eqn:E.
  destruct r as [h| | | |];
    try (rewrite (master_connect_not_connected _ _ _ _ _ _ E) in H by done; done).
  rewrite (master_connect_connected _ _ _ _ _ _ E) in H.
  destruct (decide (h = -1)) as [|Hh]; [done|].
  destruct (first_is_nul group_name) eqn:Hnul; [done|].
  destruct (decide (strlen group_name >= 256)); [done|]. cbv zeta in H.
  destruct (decide (write_full o < 0)); [done|].
  unfold and_return in H.
  destruct (master_read_env h (master_data o) _) as [[[]| | | |] p2]; try done.
  simpl in H. injection H as <- <-.
  destruct (connect_loop_first _ _ _ _ _ _ _ E Hh) as (k & Hk & Hfd & Hbefore & _).
  split_and!; [done| | | |lia].
  - exists k. split_and!; [lia|done|]. intros j Hj. apply Hbefore. lia.
  - assert (strlen group_name ≠ 0).
    { intros E0. apply first_is_nul_strlen in E0. congruence. }
    unfold strlen in *. lia.
  - lia.
Qed.

Lemma master_connect_returns_first_connected_witness :
  4 ≠ -1 ∧
  (∃ k, (k < 5)%nat ∧ (net_connect_unix os_missing_socket k).1 = 4 ∧
        ∀ j, (j < k)%nat → (net_connect_unix os_missing_socket j).1 = -1) ∧
  1 ≤ strlen (bytes "imap") ≤ 255 ∧
  0 ≤ write_full os_missing_socket.
Proof.
  apply (master_connect_returns_first_connected example_platform os_missing_socket
           (bytes "imap") fresh_proc 4
           (master_connect example_platform os_missing_socket (bytes "imap")
              fresh_proc).2).
  vm_compute. reflexivity.
Defined.

Lemma attempt_retries_returns pf o i q :
  attempt_retries o i → ∃ q1, connect_attempt pf o i q = (Ok (-1), q1).
Proof.
  intros (Hc & Herr & Hl). rewrite connect_attempt_cases. cbv zeta.
  rewrite decide_False by (intros H; by apply H).
  assert (∀ q0, ∃ q1, create_master_socket pf o i q0 = (Ok (-1), q1)) as Hcr.
  { intros q0. unfold create_master_socket, run_bind.
    destruct Hl as [(Hl & Hf1 & Hf0)|[Hl Hle]].
    - rewrite decide_True by done. rewrite master_exec_parent by done. eauto.
    - rewrite decide_False by (intros H; by apply H).
      rewrite decide_False by (intros H; by apply H). eauto. }
  destruct Herr as [Herr|Herr]; rewrite Herr.
  - rewrite decide_True by done. destruct (decide (unlink o i < 0)); apply Hcr.
  - rewrite decide_False by done. rewrite decide_False by (intros H; by apply H).
    apply Hcr.
Qed.

Lemma connect_loop_reaches pf o k n : ∀ i p,
  (i ≤ k < i + n)%nat →
  (∀ j, (i ≤ j < k)%nat → attempt_retries o j) →
  (net_connect_unix o k).1 ≠ -1 →
  ∃ p1, connect_loop pf o n i p = (Ok (net_connect_unix o k).1, p1).
Proof.
  induction n as [|n IH]; intros i p Hk Hretry Hc; [lia|].
  rewrite connect_loop_step.
  destruct (decide (i = k)) as [->|Hne].
  - rewrite connect_attempt_cases. cbv zeta. rewrite decide_True by done.
    rewrite decide_False by done. eauto.
  - destruct (attempt_retries_returns pf o i p) as [q1 ->]; [apply Hretry; lia|].
    rewrite decide_True by done. apply IH; [lia| |done].
    intros j Hj. apply Hretry. lia.
Qed.

(** X13 (master_connect, master_read_env): the bootstrap end to end. If
    the attempts before the [k]-th each end in a retry (the connect is
    refused or finds no socket, and this process then either creates the
    socket and is the parent of the supervisor it starts, or loses the
    race for the address), the [k]-th connect succeeds within the five
    attempts, the group name is 1 to 255 bytes long, the write succeeds
    and the master sends assignment lines followed by an empty line, then
    master_connect returns the connected descriptor and the environment
    is exactly those lines merged in order. *)
Theorem master_connect_bootstraps pf o group_name p k ls rest :
  (k < 5)%nat →
  (∀ j, (j < k)%nat → attempt_retries o j) →
  (net_connect_unix o k).1 ≠ -1 →
  1 ≤ strlen group_name ≤ 255 →
  0 ≤ write_full o →
  Forall (env_line 8192) ls →
  Forall (λ c, c ≠ []) (master_data o) →
  concat (master_data o) = encode_lines ls ++ LF :: rest →
  (master_connect pf o group_name p).1 = Ok (net_connect_unix o k).1 ∧
  environ (master_connect pf o group_name p).2 = merge_lines [] ls.
Proof.
  intros Hk Hretry Hc Hname Hwrite Hls Hcs Hdata.
  destruct (connect_loop_reaches pf o k 5 0%nat p) as [p1 E];
    [lia|intros j Hj; apply Hretry; lia|done|].
  rewrite (master_connect_connected _ _ _ _ _ _ E).
  rewrite decide_False by done.
  destruct (first_is_nul group_name) eqn:Hnul.
  { apply first_is_nul_strlen in Hnul. lia. }
  rewrite decide_False by lia. cbv zeta. rewrite decide_False by lia.
  match goal with |- context [master_read_env ?h ?d ?q] =>
    destruct (master_read_env_end h ls d q (LF :: rest) (Ok ()) Hls Hcs
                (EndTerminated 8192 rest) Hdata) as [Hres Henv]
  end.
  unfold and_return. cbn [fst snd]. rewrite Hres. done.
Qed.

Lemma master_connect_bootstraps_witness :
  (master_connect example_platform os_missing_socket (bytes "imap") fresh_proc).1
  = Ok (net_connect_unix os_missing_socket 1).1 ∧
  environ (master_connect example_platform os_missing_socket (bytes "imap")
             fresh_proc).2
  = merge_lines [] [].
Proof.
  apply (master_connect_bootstraps example_platform os_missing_socket
           (bytes "imap") fresh_proc 1 [] []).
  - lia.
  - intros j Hj. assert (j = 0%nat) as -> by lia.
    split; [reflexivity|]. split; [by right|]. left.
    split; [simpl; lia|]. split; simpl; lia.
  - simpl. lia.
  - vm_compute. split; discriminate.
  - simpl. lia.
  - apply Forall_nil_2.
  - apply Forall_cons_2; [done|apply Forall_nil_2].
  - reflexivity.
Defined.

(** * The line that ends the bootstrap *)

Lemma i_stream_read_whole handle chunk :
  chunk ≠ [] →
  Z.of_nat (length chunk) ≤ 8192 →
  i_stream_read (i_stream_create_file handle [chunk] 8192)
  = (Z.of_nat (length chunk), IStream handle [] chunk 8192).
Proof.
  intros Hne Hlen. unfold i_stream_read, i_stream_create_file.
  cbn [is_max_buffer_size is_buffer is_input is_handle length].
  rewrite decide_False by lia.
  destruct chunk as [|b chunk]; [done|].
  change (Z.of_nat 0) with 0. rewrite Z.sub_0_r.
  rewrite take_ge, drop_ge by lia. done.
Qed.

(** X14 (master_read_env): a line that begins with a NUL byte ends the
    bootstrap as the empty line does. When the assignment lines and such
    a line arrive in one read, the loader returns with exactly the
    assignment lines merged; the rest of that line and whatever follows
    it are dropped. *)
Theorem master_read_env_nul_line handle ls junk rest p :
  Forall (env_line 8192) ls →
  LF ∉ junk →
  Z.of_nat (length (encode_lines ls ++ Byte.x00 :: junk ++ LF :: rest)) ≤ 8192 →
  let r := master_read_env handle
             [encode_lines ls ++ Byte.x00 :: junk ++ LF :: rest] p in
  r.1 = Ok () ∧ environ r.2 = merge_lines [] ls.
Proof.
  intros Hls Hjunk Hlen. cbv zeta. unfold master_read_env.
  rewrite read_env_loop_step. cbv zeta.
  rewrite i_stream_read_whole; [|by destruct (encode_lines ls)|done].
  cbn [fst snd].
  rewrite decide_False by lia. rewrite decide_False by lia.
  erewrite (read_env_lines_drain 8192 ls); [|done|reflexivity].
  rewrite read_env_lines_step. unfold i_stream_next_line, set_buffer.
  cbn [is_buffer is_handle is_input is_max_buffer_size].
  change (Byte.x00 :: junk ++ LF :: rest) with ((Byte.x00 :: junk) ++ LF :: rest).
  rewrite split_line_app.
  2:{ apply not_elem_of_cons. split; [done|exact Hjunk]. }
  cbn [line_nonempty]. rewrite bool_decide_eq_false_2 by (intros H; by apply H).
  cbn [fst snd]. split; [done|].
  rewrite environ_put_lines. done.
Qed.

Lemma master_read_env_nul_line_witness :
  let r := master_read_env 4
             [encode_lines example_env_lines
              ++ Byte.x00 :: bytes "ignored" ++ LF :: bytes "LATE=1"]
             example_proc in
  r.1 = Ok () ∧ environ r.2 = merge_lines [] example_env_lines.
Proof.
  apply (master_read_env_nul_line 4 example_env_lines (bytes "ignored")
           (bytes "LATE=1") example_proc).
  - apply example_env_lines_ok.
  - vm_compute. intros H. by repeat (apply elem_of_cons in H as [H|H]; [done|]);
      apply elem_of_nil in H.
  - vm_compute. discriminate.
Defined.
